(** * DCAUTO quiz: the session engine of [App.tsx], embedded and verified

    The development follows the source file top to bottom: the data of
    [types.ts], the ambient random source, [shuffle], [generateOptions],
    the event handlers of the [App] component ([startGame], [handleExit],
    [handleOptionClick], [handleNext], the timer effect), the derived
    [accuracy] figure and the gating that the rendered page puts in front
    of the handlers.

    Arrays are lists, indexed with stdpp's lookup; a read out of range is
    JavaScript's [undefined], here [None].  Counters and the timer are
    integers ([Z]); JavaScript numbers are binary64 and exact on integers
    below 2^53, a range no session leaves.  The one genuinely fractional
    computation, [accuracy], is carried out in binary64 with the
    specification floats of the standard library. *)

From Stdlib Require Import ZArith Lia.
From Stdlib Require Import Floats.SpecFloat.
From stdpp Require Import base decidable option list strings pretty gmap.

Local Open Scope Z_scope.
Local Open Scope list_scope.

(** ** types.ts *)

Inductive Domain := NPF | ACI | NXOS | UCS.

(** The string value that the TypeScript enum gives each member. *)
Definition Domain_value (d : Domain) : string :=
  match d with
  | NPF => "1.0 Network Programmability Foundation"
  | ACI => "2.0 Controller Based DC Networking (ACI)"
  | NXOS => "3.0 Device-centric Networking (NX-OS)"
  | UCS => "4.0 DC Compute (UCS/Intersight)"
  end%string.

#[global] Instance Domain_eq_dec : EqDecision Domain.
Proof. solve_decision. Defined.

Module Question.
Record t := mk { id : string; domain : Domain; q : string; a : string }.
End Question.
Abbreviation Question := Question.t.

#[global] Instance Question_eq_dec : EqDecision Question.
Proof. solve_decision. Defined.

Record Stats := mkStats {
  correct : Z;
  wrong : Z;
  requeued : Z;
  totalAnswered : Z
}.

Inductive GameState := SETUP | PLAYING | SUMMARY.

#[global] Instance GameState_eq_dec : EqDecision GameState.
Proof. solve_decision. Defined.

(** ** The ambient random source

    [Math.random()] returns a number in the half-open unit interval and
    advances a hidden generator.  A draw is kept as the fraction
    [num / (num + 1 + gap)], which is below one by construction and can be
    any rational of the interval; the generator is the sequence of draws
    still to come.  [App.tsx] only ever uses a draw [r] as
    [Math.floor(r * n)] for a positive array length [n]: an index among
    [0 .. n - 1], for the exact product as for the rounded one.  Every
    statement below is for all generators, so nothing depends on which
    index a given draw yields. *)

Record Draw := mkDraw { num : nat; gap : nat }.

Definition RNG := nat -> Draw.

(** A computation that consumes draws: explicit generator passing. *)
Definition Rand (A : Type) := RNG -> A * RNG.

Definition ret {A} (x : A) : Rand A := fun g => (x, g).

Definition bind {A B} (m : Rand A) (k : A -> Rand B) : Rand B :=
  fun g => let (x, g') := m g in k x g'.

Declare Scope rand_scope.
Delimit Scope rand_scope with rand.
Notation "'let*' x ':=' m 'in' k" := (bind m (fun x => k))
  (at level 10, x name, m at level 100, k at level 200) : rand_scope.

Definition Math_random : Rand Draw :=
  fun g => (g 0%nat, fun n => g (S n)).

(** [Math.floor(r * n)] *)
Definition floor_mul (r : Draw) (n : nat) : nat :=
  ((num r * n) / (num r + 1 + gap r))%nat.

(** ** shuffle (App.tsx, lines 7-14) *)

(** Arrays are objects: a variable holds a reference into a store of
    arrays.  [shuffle] is the one place of [App.tsx] that writes into an
    array, so it is read twice below, on contents and on the store. *)
Abbreviation Ref := positive.
Abbreviation Store T := (gmap Ref (list T)).

Section Shuffle.
Context {T : Type}.

(** [[arr[i], arr[j]] = [arr[j], arr[i]]]: both reads happen first, then
    [arr[i]] is written, then [arr[j]].  The loop below only calls it
    with both indices inside the array (see [shuffle_loop_in_range]);
    outside, a read would be [undefined], and the model leaves the array
    as it is. *)
Definition swap (arr : list T) (i j : nat) : list T :=
  match arr !! j, arr !! i with
  | Some y, Some x => <[j:=x]> (<[i:=y]> arr)
  | _, _ => arr
  end.

(** The body of [for (let i = ...; i > 0; i--)], entered with the
    current value of [i]. *)
Fixpoint shuffle_loop (i : nat) (newArr : list T) : Rand (list T) :=
  match i with
  | O => ret newArr
  | S i' =>
      (let* r := Math_random in
       let j := floor_mul r (i + 1) in
       shuffle_loop i' (swap newArr i j))%rand
  end.

(** The value-level reading: [newArr] is a copy, so the result is a
    function of the contents of [array] and of the draws consumed.  On
    the empty array [newArr.length - 1] is [-1] and the loop is not
    entered, which is also what the truncated subtraction gives. *)
Definition shuffle (array : list T) : Rand (list T) :=
  let newArr := array in
  shuffle_loop (length newArr - 1) newArr.

(** The reference-level reading.  Arrays live in a store and are passed
    by reference; [[...array]] allocates a new array holding the
    elements of the argument, the loop updates that new array in place,
    and its reference is returned. *)

Definition spread (array : Ref) (h : Store T) : option (Ref * Store T) :=
  match h !! array with
  | Some elems => let r := fresh (dom h) in Some (r, <[r:=elems]> h)
  | None => None
  end.

Definition swap_at (newArr : Ref) (i j : nat) (h : Store T) : Store T :=
  match h !! newArr with
  | Some arr => <[newArr := swap arr i j]> h
  | None => h
  end.

Fixpoint shuffle_loop_at (i : nat) (newArr : Ref) (h : Store T)
  : Rand (Store T) :=
  match i with
  | O => ret h
  | S i' =>
      (let* r := Math_random in
       let j := floor_mul r (i + 1) in
       shuffle_loop_at i' newArr (swap_at newArr i j h))%rand
  end.

Definition array_length (r : Ref) (h : Store T) : nat :=
  match h !! r with Some arr => length arr | None => 0%nat end.

Definition shuffle_at (array : Ref) (h : Store T)
  : Rand (option (Ref * Store T)) :=
  match spread array h with
  | Some (newArr, h1) =>
      (let* h2 := shuffle_loop_at (array_length newArr h1 - 1) newArr h1 in
       ret (Some (newArr, h2)))%rand
  | None => ret None
  end.
End Shuffle.

(** ** generateOptions (App.tsx, lines 44-63) *)

(** A JavaScript [Set] of strings iterates in insertion order and ignores
    the insertion of a member it already has: the list of its members, in
    that order. *)
Definition Set_add (s : list string) (x : string) : list string :=
  if decide (x ∈ s) then s else s ++ [x].

Definition new_Set (values : list string) : list string :=
  foldl Set_add [] values.

Definition Array_from (s : list string) : list string := s.

Definition generateOptions (currentQ : Question) (allQuestions : list Question)
  : Rand (list string) :=
  let pool := filter (fun q => Question.id q ≠ Question.id currentQ) allQuestions in
  let sameDomainPool :=
    filter (fun q => Question.domain q = Question.domain currentQ) pool in
  let pool := if decide (3 ≤ length sameDomainPool)%nat then sameDomainPool else pool in
  let uniqueAnswers := Array_from (new_Set (Question.a <$> pool)) in
  (let* shuffled := shuffle uniqueAnswers in
   let distractors := take 3 shuffled in
   shuffle (distractors ++ [Question.a currentQ]))%rand.

(** ** The component state: one field per [useState] *)

Definition TIMER_START : Z := 20 * 60.

Record State := mkState {
  gameState : GameState;
  selectedDomain : string;
  deck : list Question;
  currentIndex : nat;
  currentOptions : list string;
  selectedOption : option string;
  isAnswered : bool;
  timer : Z;
  isActive : bool;
  stats : Stats
}.

Definition zeroStats : Stats :=
  {| correct := 0; wrong := 0; requeued := 0; totalAnswered := 0 |}.

(** The arguments of the [useState] calls. *)
Definition initialState : State :=
  {| gameState := SETUP; selectedDomain := "ALL"%string; deck := []; currentIndex := 0;
     currentOptions := []; selectedOption := None; isAnswered := false;
     timer := TIMER_START; isActive := false; stats := zeroStats |}.

(** The state setters.  A handler runs against the state of the render it
    was created in and queues its updates, which the next render applies;
    no handler of [App.tsx] sets the same field twice, so a handler is the
    composition of its setter calls. *)
Definition setGameState (v : GameState) (s : State) : State :=
  mkState v (selectedDomain s) (deck s) (currentIndex s) (currentOptions s)
    (selectedOption s) (isAnswered s) (timer s) (isActive s) (stats s).
Definition setSelectedDomain (v : string) (s : State) : State :=
  mkState (gameState s) v (deck s) (currentIndex s) (currentOptions s)
    (selectedOption s) (isAnswered s) (timer s) (isActive s) (stats s).
Definition setDeck (f : list Question -> list Question) (s : State) : State :=
  mkState (gameState s) (selectedDomain s) (f (deck s)) (currentIndex s)
    (currentOptions s) (selectedOption s) (isAnswered s) (timer s) (isActive s)
    (stats s).
Definition setCurrentIndex (v : nat) (s : State) : State :=
  mkState (gameState s) (selectedDomain s) (deck s) v (currentOptions s)
    (selectedOption s) (isAnswered s) (timer s) (isActive s) (stats s).
Definition setCurrentOptions (v : list string) (s : State) : State :=
  mkState (gameState s) (selectedDomain s) (deck s) (currentIndex s) v
    (selectedOption s) (isAnswered s) (timer s) (isActive s) (stats s).
Definition setSelectedOption (v : option string) (s : State) : State :=
  mkState (gameState s) (selectedDomain s) (deck s) (currentIndex s)
    (currentOptions s) v (isAnswered s) (timer s) (isActive s) (stats s).
Definition setIsAnswered (v : bool) (s : State) : State :=
  mkState (gameState s) (selectedDomain s) (deck s) (currentIndex s)
    (currentOptions s) (selectedOption s) v (timer s) (isActive s) (stats s).
Definition setTimer (f : Z -> Z) (s : State) : State :=
  mkState (gameState s) (selectedDomain s) (deck s) (currentIndex s)
    (currentOptions s) (selectedOption s) (isAnswered s) (f (timer s))
    (isActive s) (stats s).
Definition setIsActive (v : bool) (s : State) : State :=
  mkState (gameState s) (selectedDomain s) (deck s) (currentIndex s)
    (currentOptions s) (selectedOption s) (isAnswered s) (timer s) v (stats s).
Definition setStats (f : Stats -> Stats) (s : State) : State :=
  mkState (gameState s) (selectedDomain s) (deck s) (currentIndex s)
    (currentOptions s) (selectedOption s) (isAnswered s) (timer s) (isActive s)
    (f (stats s)).

Notation "s |> f" := (f s) (at level 45, left associativity, only parsing).

(** What a handler call comes to: it returns, or it throws the
    [TypeError] of a property read on [undefined]. *)
Inductive Outcome (A : Type) :=
  | Returned (x : A)
  | TypeError.
Arguments Returned {A} x.
Arguments TypeError {A}.

(** ** The handlers of [App] *)

Section App.
(** [import { questions } from './questions']: the question bank, a
    module-level constant array. *)
Variable questions : list Question.

(** startGame (lines 66-85) *)
Definition startGame (s : State) : Rand State :=
  let filtered :=
    if decide (selectedDomain s ≠ "ALL"%string)
    then filter (fun q => Domain_value (Question.domain q) = selectedDomain s) questions
    else questions in
  (let* shuffledDeck := shuffle filtered in
   let s := s |> setDeck (fun _ => shuffledDeck)
              |> setCurrentIndex 0
              |> setGameState PLAYING
              |> setTimer (fun _ => TIMER_START)
              |> setStats (fun _ => mkStats 0 0 0 0)
              |> setIsActive true in
   if (0 <? length shuffledDeck)%nat then
     match shuffledDeck !! 0%nat return Rand State with
     | Some first =>
         let* options := generateOptions first questions in
         ret (s |> setCurrentOptions options
                |> setIsAnswered false
                |> setSelectedOption None)
     | None => ret s
     end
   else ret s)%rand.

(** handleExit (lines 87-90) *)
Definition handleExit (s : State) : State :=
  s |> setIsActive false |> setGameState SETUP.

(** The timer effect (lines 93-106) runs after a render.  Its first
    branch arms a one-second interval whose callback is [tick]; its
    second branch ends the session. *)
Definition intervalArmed (s : State) : bool :=
  isActive s && (timer s >? 0).

Definition timerEffect (s : State) : State :=
  if intervalArmed s then s
  else if bool_decide (timer s = 0) && bool_decide (gameState s = PLAYING)
  then s |> setIsActive false |> setGameState SUMMARY
  else s.

Definition tick (s : State) : State :=
  if intervalArmed s then s |> setTimer (fun t => t - 1) else s.

(** handleOptionClick (lines 108-129).  [currentCard.a] is read before
    any setter is called, so a throw leaves nothing queued. *)
Definition handleOptionClick (option : string) (s : State) : Outcome State :=
  if isAnswered s then Returned s
  else
    match deck s !! currentIndex s with
    | None => TypeError
    | Some currentCard =>
        let isCorrect := bool_decide (option = Question.a currentCard) in
        let s := s |> setSelectedOption (Some option)
                   |> setIsAnswered true
                   |> setStats (fun prev =>
                        {| correct := correct prev + (if isCorrect then 1 else 0);
                           wrong := wrong prev + (if negb isCorrect then 1 else 0);
                           requeued := requeued prev + (if negb isCorrect then 1 else 0);
                           totalAnswered := totalAnswered prev + 1 |}) in
        if negb isCorrect
        then Returned (s |> setDeck (fun prev => prev ++ [currentCard]))
        else Returned s
    end.

(** handleNext (lines 131-143).  [deck[nextIndex]] is inside the deck
    whenever the first branch is taken (see [handleNext_returns]). *)
Definition handleNext (s : State) : Rand (Outcome State) :=
  if decide (Z.of_nat (currentIndex s) < Z.of_nat (length (deck s)) - 1) then
    let nextIndex := (currentIndex s + 1)%nat in
    match deck s !! nextIndex with
    | Some nextCard =>
        (let* options := generateOptions nextCard questions in
         ret (Returned (s |> setCurrentIndex nextIndex
                          |> setCurrentOptions options
                          |> setIsAnswered false
                          |> setSelectedOption None)))%rand
    | None => ret TypeError
    end
  else ret (Returned (s |> setIsActive false |> setGameState SUMMARY)).

(** [const currentCard = deck[currentIndex]] (line 145) *)
Definition currentCard (s : State) : option Question :=
  deck s !! currentIndex s.

(** *** Calls from outside

    The things that can invoke a handler: the page's controls and the
    interval.  A handler that throws has queued no update, so the state
    is what it was; after every render the timer effect runs. *)
Inductive Call :=
  | CallSetSelectedDomain (value : string)
  | CallStartGame
  | CallHandleExit
  | CallHandleOptionClick (option : string)
  | CallHandleNext
  | CallNewQuiz
  | CallTick.

Definition settle (s : State) (o : Outcome State) : State :=
  match o with Returned s' => s' | TypeError => s end.

Definition call (c : Call) (s : State) : Rand State :=
  (let* s' :=
     match c with
     | CallSetSelectedDomain value => ret (s |> setSelectedDomain value)
     | CallStartGame => startGame s
     | CallHandleExit => ret (handleExit s)
     | CallHandleOptionClick option => ret (settle s (handleOptionClick option s))
     | CallHandleNext => let* o := handleNext s in ret (settle s o)
     | CallNewQuiz => ret (s |> setGameState SETUP)
     | CallTick => ret (tick s)
     end in
   ret (timerEffect s'))%rand.

Fixpoint run (cs : list Call) (s : State) : Rand State :=
  match cs with
  | [] => ret s
  | c :: cs' => (let* s' := call c s in run cs' s')%rand
  end.

(** *** The rendered page (lines 170-308)

    Which controls the page shows in a state, hence which calls a user
    can cause.  The option buttons carry [disabled={isAnswered}]; the
    NEXT button is inside [{isAnswered && ...}]; both are inside
    [{gameState === GameState.PLAYING && currentCard && ...}]. *)
Inductive Control :=
  | ExitButton
  | DomainSelect (choice : option Domain)
  | StartButton
  | OptionButton (idx : nat)
  | NextButton
  | NewQuizButton.

Definition cardShown (s : State) : bool :=
  bool_decide (gameState s = PLAYING) && bool_decide (is_Some (currentCard s)).

Definition offered (c : Control) (s : State) : option Call :=
  match c with
  | ExitButton =>
      if bool_decide (gameState s = PLAYING) then Some CallHandleExit else None
  | DomainSelect choice =>
      if bool_decide (gameState s = SETUP)
      then Some (CallSetSelectedDomain
                   (match choice with None => "ALL"%string | Some d => Domain_value d end))
      else None
  | StartButton =>
      if bool_decide (gameState s = SETUP) then Some CallStartGame else None
  | OptionButton idx =>
      if cardShown s && negb (isAnswered s)
      then CallHandleOptionClick <$> (currentOptions s !! idx)
      else None
  | NextButton =>
      if cardShown s && isAnswered s then Some CallHandleNext else None
  | NewQuizButton =>
      if bool_decide (gameState s = SUMMARY) then Some CallNewQuiz else None
  end.

(** A user action on a control: the call it causes if the page shows
    the control, nothing otherwise. *)
Definition act (c : Control) (s : State) : Rand State :=
  match offered c s with
  | Some k => call k s
  | None => ret s
  end.
End App.

(** ** accuracy (App.tsx, lines 147-149)

    The quotient and the product are binary64 operations, rounded to
    nearest with ties to even; [Math.round] is exact and sends a tie to
    the larger integer. *)

Definition Number (z : Z) : spec_float := binary_normalize 53 1024 z 0 false.

#[global] Instance spec_float_eq_dec : EqDecision spec_float.
Proof. solve_decision. Defined.

Definition Number_div (x y : spec_float) : spec_float := SFdiv 53 1024 x y.
Definition Number_mul (x y : spec_float) : spec_float := SFmul 53 1024 x y.

(** [Math.round(x)]: the integer [floor(x + 1/2)], computed on the exact
    value [±m * 2^e] of a finite [x]; zeros, infinities and NaN are
    returned as they are, and a result of zero keeps the sign of [x]. *)
Definition Math_round (x : spec_float) : spec_float :=
  match x with
  | S754_finite sign m e =>
      let v := if sign then Z.neg m else Z.pos m in
      let n := if 0 <=? e then v * 2 ^ e
               else (2 * v + 2 ^ (- e)) / 2 ^ (1 - e) in
      if n =? 0 then S754_zero sign else Number n
  | _ => x
  end.

Definition accuracy (stats : Stats) : spec_float :=
  if totalAnswered stats >? 0
  then Math_round (Number_mul (Number_div (Number (correct stats))
                                          (Number (totalAnswered stats)))
                              (Number 100))
  else Number 0.

(** The integer that a number stands for, when it stands for one: what
    the page prints for it.  A finite binary64 is [±m * 2^e]. *)
Definition integerValue (x : spec_float) : option Z :=
  match x with
  | S754_zero _ => Some 0
  | S754_finite sign m e =>
      let v := if sign then Z.neg m else Z.pos m in
      if 0 <=? e then Some (v * 2 ^ e)
      else if v mod 2 ^ (- e) =? 0 then Some (v / 2 ^ (- e))
      else None
  | _ => None
  end.

(** The percentage of the specification, in exact arithmetic:
    [100 * correct / totalAnswered] rounded to the nearest integer, a tie
    going up. *)
Definition exactPercentage (correct totalAnswered : Z) : Z :=
  (200 * correct + totalAnswered) / (2 * totalAnswered).

(** ** The candidate pool, in the specification's words

    Candidates are the universe minus the target, removed by id; the pool
    is the same-domain candidates when there are at least three of them
    and all candidates otherwise. *)

Definition candidates (target : Question) (universe : list Question) : list Question :=
  filter (fun u => Question.id u ≠ Question.id target) universe.

Definition sameDomainCandidates (target : Question) (universe : list Question)
  : list Question :=
  filter (fun u => Question.id u ≠ Question.id target /\
                   Question.domain u = Question.domain target) universe.

Definition selectedPool (target : Question) (universe : list Question)
  : list Question :=
  if decide (3 ≤ length (sameDomainCandidates target universe))%nat
  then sameDomainCandidates target universe
  else candidates target universe.

(** The domain-filtered universe that [startGame] builds its deck from. *)
Definition filteredUniverse (questions : list Question) (selected : string)
  : list Question :=
  if decide (selected = "ALL"%string) then questions
  else filter (fun q => Domain_value (Question.domain q) = selected) questions.

(** The invariant of the tallies. *)
Definition StatsOK (st : Stats) : Prop :=
  requeued st = wrong st /\ totalAnswered st = correct st + wrong st.

(** The number of distinct answer texts among some questions. *)
Definition distinctAnswers (pool : list Question) : nat :=
  size (list_to_set (C := gset string) (Question.a <$> pool)).

(** The distractors drawn for a target: the first three of the shuffled set
    of the pool's answer texts. *)
Definition distractorsOf (currentQ : Question) (allQuestions : list Question)
    (g : RNG) : list string :=
  take 3 (shuffle (new_Set (Question.a <$> selectedPool currentQ allQuestions)) g).1.

(** ** Sample data

    A fixed generator and small question banks, on which the statements
    below are exercised. *)

Definition sampleRNG : RNG := fun n => mkDraw (n mod 3) (n mod 2).

Definition sampleStore : Store nat := {[ 1%positive := [10; 20; 30; 40]%nat ]}.

Definition qREST : Question := Question.mk "q1" NPF "Which style is stateless?" "REST".
Definition qNETCONF : Question := Question.mk "q2" NPF "Which protocol uses SSH?" "NETCONF".
Definition qGRPC : Question := Question.mk "q3" NPF "Which one uses HTTP/2?" "gRPC".
Definition qYANG : Question := Question.mk "q4" NPF "Which language models data?" "YANG".
Definition qAPIC : Question := Question.mk "q5" ACI "Which controller runs ACI?" "APIC".

(** Pairwise distinct ids and answer texts. *)
Definition bankDistinct : list Question := [qREST; qNETCONF; qGRPC; qYANG; qAPIC].

(** Two other questions share one answer text. *)
Definition qSSH : Question := Question.mk "q6" NPF "What carries NETCONF?" "NETCONF".
Definition bankRepeated : list Question := [qREST; qNETCONF; qSSH; qGRPC].

(** Another question has the target's answer text. *)
Definition qHTTP : Question := Question.mk "q7" NPF "Which style rides on HTTP verbs?" "REST".
Definition bankClash : list Question := [qREST; qHTTP; qNETCONF; qGRPC].

(** Two candidates share an answer text, and three distinct texts remain. *)
Definition bankShared : list Question := [qREST; qNETCONF; qSSH; qGRPC; qYANG].

(** Twenty-three questions with pairwise distinct answers. *)
Definition bankOfTwentyThree : list Question :=
  (fun n : nat => Question.mk (pretty n) NPF "Which number?" (pretty n)) <$> seq 0 23.

(** A session on [bankDistinct] at its first card, not yet answered, and
    the same card once answered wrongly. *)
Definition samplePlaying : State :=
  {| gameState := PLAYING; selectedDomain := "ALL"%string;
     deck := [qREST; qNETCONF]; currentIndex := 0;
     currentOptions := ["YANG"; "REST"; "gRPC"; "NETCONF"]%string;
     selectedOption := None; isAnswered := false;
     timer := TIMER_START; isActive := true; stats := zeroStats |}.

Definition sampleAnswered : State :=
  {| gameState := PLAYING; selectedDomain := "ALL"%string;
     deck := [qREST; qNETCONF; qREST]; currentIndex := 0;
     currentOptions := ["YANG"; "REST"; "gRPC"; "NETCONF"]%string;
     selectedOption := Some "YANG"%string; isAnswered := true;
     timer := TIMER_START; isActive := true; stats := mkStats 0 1 1 1 |}.

(** The setup page after choosing a domain that [bankDistinct] has no
    question of. *)
Definition sampleSetup : State :=
  initialState |> setSelectedDomain (Domain_value NXOS).

(** ** formatTime (App.tsx, lines 16-20) *)

(** [n.toString()] of an integer: decimal digits, a minus sign in front of
    a negative one. *)
Definition Number_toString (n : Z) : string := pretty n.

(** [s.padStart(targetLength, fillString)]: nothing when [s] is long
    enough or the filler is empty; otherwise the filler, repeated and cut
    to the missing length, goes in front. *)
Fixpoint filler (fillLen : nat) (fillString rest : string) : string :=
  match fillLen with
  | O => EmptyString
  | S n =>
      match rest with
      | String c rest' => String c (filler n fillString rest')
      | EmptyString =>
          match fillString with
          | String c rest' => String c (filler n fillString rest')
          | EmptyString => EmptyString
          end
      end
  end.

Definition padStart (targetLength : nat) (fillString : string) (s : string) : string :=
  if (targetLength <=? String.length s)%nat then s
  else if decide (fillString = EmptyString) then s
  else filler (targetLength - String.length s) fillString fillString +:+ s.

Definition formatTime (seconds : Z) : string :=
  let m := seconds / 60 in
  let s := Z.rem seconds 60 in
  padStart 2 "0" (Number_toString m) +:+ ":" +:+ padStart 2 "0" (Number_toString s).

(** Two decimal digits, written out: what the clock is expected to show
    for minutes and for seconds. *)
Definition digitChar (n : Z) : Ascii.ascii := Ascii.ascii_of_nat (48 + Z.to_nat n).

Definition twoDigits (n : Z) : string :=
  String (digitChar (n / 10)) (String (digitChar (n mod 10)) EmptyString).

(** ** getOptionStyle (App.tsx, lines 152-168)

    The class string of an option button.  Once the card is answered the
    function reads [currentCard.a], which throws when there is no current
    card. *)
Definition styleBase : string :=
  "w-full p-4 text-left border text-sm md:text-base transition-all duration-200 ".
Definition styleOpen : string :=
  "border-gray-700 hover:border-white hover:bg-gray-900".
Definition styleCorrect : string :=
  "border-green-500 text-green-500 bg-green-900/10 font-bold".
Definition styleWrong : string :=
  "border-red-500 text-red-500 bg-red-900/10 line-through decoration-1".
Definition styleDimmed : string :=
  "border-gray-800 text-gray-600 opacity-50".

Definition getOptionStyle (option : string) (s : State) : Outcome string :=
  let base := styleBase in
  if negb (isAnswered s) then Returned (base +:+ styleOpen)
  else
    match currentCard s with
    | None => TypeError
    | Some card =>
        if bool_decide (option = Question.a card)
        then Returned (base +:+ styleCorrect)
        else if bool_decide (Some option = selectedOption s)
                && bool_decide (option <> Question.a card)
        then Returned (base +:+ styleWrong)
        else Returned (base +:+ styleDimmed)
    end.

(** ** What reaches the page: presses and the interval *)

Inductive Input :=
  | Press (c : Control)
  | IntervalFires.

Definition react (questions : list Question) (i : Input) (s : State) : Rand State :=
  match i with
  | Press c => act questions c s
  | IntervalFires => call questions CallTick s
  end.

Fixpoint session (questions : list Question) (inputs : list Input) (s : State)
  : Rand State :=
  match inputs with
  | [] => ret s
  | i :: inputs' => (let* s' := react questions i s in session questions inputs' s')%rand
  end.

(** A user who answers the current card correctly and moves on, and does
    so a number of times. *)
Definition answerAndAdvance (questions : list Question) (s : State) : Rand State :=
  match currentCard s with
  | Some card =>
      (let* s1 := call questions (CallHandleOptionClick (Question.a card)) s in
       call questions CallHandleNext s1)%rand
  | None => ret s
  end.

Fixpoint perfectRounds (questions : list Question) (n : nat) (s : State)
  : Rand State :=
  match n with
  | O => ret s
  | S n' =>
      (let* s1 := answerAndAdvance questions s in
       perfectRounds questions n' s1)%rand
  end.

(** A user at the page who presses, among the options shown, the first
    that is the answer ([hit]) or the first that is not, then NEXT; and
    does so round after round. *)
Definition pressOptionThenNext (questions : list Question) (hit : bool) (s : State)
  : Rand State :=
  match currentCard s with
  | Some card =>
      match list_find (fun o => bool_decide (o = Question.a card) = hit)
                      (currentOptions s) with
      | Some (idx, _) =>
          session questions [Press (OptionButton idx); Press NextButton] s
      | None => ret s
      end
  | None => ret s
  end.

Fixpoint userRounds (questions : list Question) (hits : list bool) (s : State)
  : Rand State :=
  match hits with
  | [] => ret s
  | hit :: hits' =>
      (let* s1 := pressOptionThenNext questions hit s in
       userRounds questions hits' s1)%rand
  end.

(** Seventeen cards missed, then every card answered correctly. *)
Definition sessionOfForty : Rand State :=
  (let* s0 := session bankOfTwentyThree [Press StartButton] initialState in
   userRounds bankOfTwentyThree (replicate 17 false ++ replicate 23 true) s0)%rand.

(** ** What every reachable state satisfies *)

Definition cursorInDeck (s : State) : Prop :=
  (currentIndex s < length (deck s))%nat \/ (deck s = [] /\ currentIndex s = 0%nat).

Definition answerOffered (s : State) : Prop :=
  forall card, currentCard s = Some card -> Question.a card ∈ currentOptions s.

Definition Inv (questions : list Question) (s : State) : Prop :=
  0 <= timer s <= TIMER_START /\
  cursorInDeck s /\
  answerOffered s /\
  (forall card, card ∈ deck s -> card ∈ questions) /\
  (isAnswered s = true <-> is_Some (selectedOption s)).

(** What holds of the states the page itself can reach. *)
Definition pageInv (s : State) : Prop :=
  (isActive s = true -> gameState s = PLAYING) /\
  (deck s <> [] ->
   totalAnswered (stats s) =
   Z.of_nat (currentIndex s) + (if isAnswered s then 1 else 0)).

(** * Facts *)

(** ** The random source *)

Lemma floor_mul_lt (r : Draw) (n : nat) : (0 < n)%nat -> (floor_mul r n < n)%nat.
Proof.
  intros Hn. unfold floor_mul.
  apply Nat.Div0.div_lt_upper_bound. nia.
Qed.

Lemma bind_run {A B} (m : Rand A) (k : A -> Rand B) (g : RNG) :
  bind m k g = k (m g).1 (m g).2.
Proof. unfold bind. by destruct (m g). Qed.

(** ** shuffle *)

Section ShuffleFacts.
Context {T : Type}.
Implicit Types (arr : list T) (g : RNG) (h : Store T).

(** Overwriting a slot trades the old element for the new one. *)
Lemma insert_trade arr i x y :
  arr !! i = Some x -> y :: arr ≡ₚ x :: <[i:=y]> arr.
Proof.
  revert i. induction arr as [|z arr IH]; intros [|i] Hi; simplify_eq/=.
  - apply Permutation_swap.
  - rewrite (Permutation_swap z x). rewrite <- (IH i Hi).
    apply Permutation_swap.
Qed.

Lemma swap_Permutation arr i j : swap arr i j ≡ₚ arr.
Proof.
  unfold swap.
  destruct (arr !! j) as [y|] eqn:Hj; [|done].
  destruct (arr !! i) as [x|] eqn:Hi; [|done].
  apply (Permutation_cons_inv (a:=y)).
  rewrite (insert_trade arr i x y Hi).
  symmetry. apply insert_trade.
  destruct (decide (i = j)) as [->|Hne].
  - apply list_lookup_insert_eq. by eapply lookup_lt_Some.
  - by rewrite list_lookup_insert_ne.
Qed.

Lemma swap_length arr i j : length (swap arr i j) = length arr.
Proof. apply Permutation_length, swap_Permutation. Qed.

Lemma shuffle_loop_step i arr g :
  shuffle_loop (S i) arr g =
  shuffle_loop i (swap arr (S i) (floor_mul (g 0%nat) (S i + 1)))
               (fun n => g (S n)).
Proof. reflexivity. Qed.

Lemma shuffle_loop_Permutation i arr g : (shuffle_loop i arr g).1 ≡ₚ arr.
Proof.
  revert arr g. induction i as [|i IH]; intros arr g; [done|].
  rewrite shuffle_loop_step, IH. apply swap_Permutation.
Qed.

(** Every index the loop hands to [swap] is inside the array: [i] runs
    from [length - 1] down to [1] and [j] is drawn from [0..i], so both
    reads find an element. *)
Lemma shuffle_loop_in_range i arr (r : Draw) :
  (i < length arr)%nat ->
  is_Some (arr !! i) /\ is_Some (arr !! floor_mul r (i + 1)).
Proof.
  intros Hi. pose proof (floor_mul_lt r (i + 1)).
  split; apply lookup_lt_is_Some_2; lia.
Qed.

Lemma shuffle_Permutation arr g : (shuffle arr g).1 ≡ₚ arr.
Proof. apply shuffle_loop_Permutation. Qed.

Lemma shuffle_length arr g : length (shuffle arr g).1 = length arr.
Proof. apply Permutation_length, shuffle_Permutation. Qed.

Lemma shuffle_short arr g : (length arr <= 1)%nat -> shuffle arr g = (arr, g).
Proof.
  intros Hlen. unfold shuffle.
  replace (length arr - 1)%nat with 0%nat by lia. reflexivity.
Qed.

Lemma elem_of_shuffle arr g x : x ∈ (shuffle arr g).1 <-> x ∈ arr.
Proof. by rewrite shuffle_Permutation. Qed.

Lemma shuffle_NoDup arr g : NoDup arr -> NoDup (shuffle arr g).1.
Proof. by rewrite shuffle_Permutation. Qed.

(** The in-place loop on the store does to the array behind [newArr]
    what [shuffle_loop] does to its contents, and touches nothing else. *)
Lemma shuffle_loop_at_contents i newArr h arr g :
  h !! newArr = Some arr ->
  shuffle_loop_at i newArr h g =
  (<[newArr := (shuffle_loop i arr g).1]> h, (shuffle_loop i arr g).2).
Proof.
  revert h arr g. induction i as [|i IH]; intros h arr g Hh.
  - simpl. unfold ret. by rewrite insert_id.
  - rewrite shuffle_loop_step.
    change (shuffle_loop_at (S i) newArr h g) with
      (shuffle_loop_at i newArr
         (swap_at newArr (S i) (floor_mul (g 0%nat) (S i + 1)) h)
         (fun n => g (S n))).
    unfold swap_at. rewrite Hh.
    erewrite IH by apply lookup_insert_eq.
    by rewrite insert_insert_eq.
Qed.
End ShuffleFacts.

(** C6. For a sequence of any length, [shuffle] returns a new array (a
    reference the store did not hold) whose contents are a permutation of
    the argument's, hence of the same length; the argument array and every
    other array of the store are as they were.  On at most one element
    the contents are the argument's. *)
Theorem shuffle_at_permutation {T : Type} (h : Store T) (array : Ref)
    (s : list T) (g : RNG) :
  h !! array = Some s ->
  exists (newArr : Ref) (h' : Store T),
    (shuffle_at array h g).1 = Some (newArr, h') /\
    h !! newArr = None /\
    h' !! newArr = Some (shuffle s g).1 /\
    (shuffle s g).1 ≡ₚ s /\
    length (shuffle s g).1 = length s /\
    ((length s <= 1)%nat -> (shuffle s g).1 = s) /\
    h' !! array = Some s /\
    (forall r : Ref, r <> newArr -> h' !! r = h !! r).
Proof.
  intros Hs. unfold shuffle_at, spread. rewrite Hs.
  set (newArr := fresh (dom h)).
  assert (Hfresh : h !! newArr = None).
  { apply not_elem_of_dom, is_fresh. }
  assert (Hne : array <> newArr) by congruence.
  rewrite bind_run.
  rewrite (shuffle_loop_at_contents _ newArr _ s) by apply lookup_insert_eq.
  unfold array_length. rewrite lookup_insert_eq, insert_insert_eq.
  exists newArr, (<[newArr := (shuffle s g).1]> h).
  repeat split.
  - done.
  - apply lookup_insert_eq.
  - apply shuffle_Permutation.
  - apply shuffle_length.
  - intros Hlen. by rewrite shuffle_short.
  - by rewrite lookup_insert_ne.
  - intros r Hr. by rewrite lookup_insert_ne.
Qed.

Lemma shuffle_at_permutation_witness :
  sampleStore !! 1%positive = Some [10; 20; 30; 40]%nat /\
  exists (newArr : Ref) (h' : Store nat),
    (shuffle_at 1%positive sampleStore sampleRNG).1 = Some (newArr, h') /\
    sampleStore !! newArr = None /\
    h' !! newArr = Some (shuffle [10; 20; 30; 40]%nat sampleRNG).1 /\
    (shuffle [10; 20; 30; 40]%nat sampleRNG).1 ≡ₚ [10; 20; 30; 40]%nat /\
    length (shuffle [10; 20; 30; 40]%nat sampleRNG).1 = 4%nat /\
    ((4 <= 1)%nat -> (shuffle [10; 20; 30; 40]%nat sampleRNG).1 = [10; 20; 30; 40]%nat) /\
    h' !! 1%positive = Some [10; 20; 30; 40]%nat /\
    (forall r : Ref, r <> newArr -> h' !! r = sampleStore !! r).
Proof.
  split; [reflexivity|].
  apply (shuffle_at_permutation sampleStore 1%positive [10; 20; 30; 40]%nat sampleRNG).
  reflexivity.
Defined.

(** ** Lists *)

Lemma filter_none {A} (P : A -> Prop) `{!forall x, Decision (P x)} (l : list A) :
  Forall (fun x => ~ P x) l -> filter P l = [].
Proof.
  induction 1 as [|x l Hx _ IH]; [done|].
  by rewrite filter_cons_False.
Qed.

Lemma filter_all {A} (P : A -> Prop) `{!forall x, Decision (P x)} (l : list A) :
  Forall P l -> filter P l = l.
Proof.
  induction 1 as [|x l Hx _ IH]; [done|].
  rewrite filter_cons_True by done. by rewrite IH.
Qed.

Lemma NoDup_fmap_elem_inj {A B} (f : A -> B) (l : list A) (x y : A) :
  NoDup (f <$> l) -> x ∈ l -> y ∈ l -> f x = f y -> x = y.
Proof.
  induction l as [|z l IH]; simpl; [by intros _ ?%elem_of_nil|].
  rewrite NoDup_cons, !elem_of_cons, list_elem_of_fmap.
  intros [Hz Hl] [->|Hx] [->|Hy] Hf; [done| | |by apply IH].
  - destruct Hz. by exists y.
  - destruct Hz. by exists x.
Qed.

(** ** generateOptions *)

Lemma Set_add_NoDup (s : list string) (x : string) : NoDup s -> NoDup (Set_add s x).
Proof.
  intros Hs. unfold Set_add. case_decide; [done|].
  apply NoDup_app. split_and!; [done| |apply NoDup_singleton].
  intros y Hy ->%list_elem_of_singleton. done.
Qed.

Lemma elem_of_Set_add (s : list string) (x y : string) :
  y ∈ Set_add s x <-> y ∈ s \/ y = x.
Proof.
  unfold Set_add. case_decide.
  - split; [tauto|]. by intros [?| ->].
  - rewrite elem_of_app, list_elem_of_singleton. done.
Qed.

Lemma foldl_Set_add_NoDup (values acc : list string) :
  NoDup acc -> NoDup (foldl Set_add acc values).
Proof.
  revert acc. induction values as [|v values IH]; intros acc Hacc; [done|].
  simpl. by apply IH, Set_add_NoDup.
Qed.

Lemma elem_of_foldl_Set_add (values acc : list string) (y : string) :
  y ∈ foldl Set_add acc values <-> y ∈ acc \/ y ∈ values.
Proof.
  revert acc. induction values as [|v values IH]; intros acc; simpl.
  - rewrite elem_of_nil. tauto.
  - rewrite IH, elem_of_Set_add, elem_of_cons. tauto.
Qed.

Lemma new_Set_NoDup (values : list string) : NoDup (new_Set values).
Proof. apply foldl_Set_add_NoDup, NoDup_nil_2. Qed.

Lemma elem_of_new_Set (values : list string) (y : string) :
  y ∈ new_Set values <-> y ∈ values.
Proof.
  unfold new_Set. rewrite elem_of_foldl_Set_add, elem_of_nil. tauto.
Qed.

(** The members of the set are as many as the distinct values. *)
Lemma new_Set_length (values : list string) :
  length (new_Set values) = size (list_to_set (C := gset string) values).
Proof.
  rewrite <- (size_list_to_set (C := gset string)) by apply new_Set_NoDup.
  f_equal. apply set_eq. intros y.
  by rewrite !elem_of_list_to_set, elem_of_new_Set.
Qed.

(** A set built from values that are already distinct has all of them. *)
Lemma new_Set_length_NoDup (values : list string) :
  NoDup values -> length (new_Set values) = length values.
Proof.
  intros Hnd. apply Permutation_length, NoDup_Permutation;
    [apply new_Set_NoDup|done|apply elem_of_new_Set].
Qed.

(** The pool that the code computes with its two nested filters and its
    conditional reassignment is [selectedPool]. *)
Lemma sameDomainCandidates_nested (target : Question) (universe : list Question) :
  filter (fun q => Question.domain q = Question.domain target)
         (candidates target universe)
  = sameDomainCandidates target universe.
Proof.
  unfold candidates, sameDomainCandidates.
  rewrite list_filter_filter. apply list_filter_iff. tauto.
Qed.

Lemma generateOptions_unfold (currentQ : Question) (allQuestions : list Question) :
  generateOptions currentQ allQuestions =
  (let* shuffled := shuffle (new_Set (Question.a <$> selectedPool currentQ allQuestions)) in
   shuffle (take 3 shuffled ++ [Question.a currentQ]))%rand.
Proof.
  unfold generateOptions, selectedPool, Array_from.
  fold (candidates currentQ allQuestions).
  rewrite sameDomainCandidates_nested. reflexivity.
Qed.

Lemma elem_of_selectedPool (target : Question) (universe : list Question) (u : Question) :
  u ∈ selectedPool target universe ->
  u ∈ universe /\ Question.id u ≠ Question.id target.
Proof.
  unfold selectedPool, sameDomainCandidates, candidates.
  case_decide; rewrite list_elem_of_filter; tauto.
Qed.

Lemma generateOptions_Permutation (currentQ : Question) (allQuestions : list Question)
    (g : RNG) :
  (generateOptions currentQ allQuestions g).1 ≡ₚ
  distractorsOf currentQ allQuestions g ++ [Question.a currentQ].
Proof.
  rewrite generateOptions_unfold, bind_run. apply shuffle_Permutation.
Qed.

Lemma distractorsOf_NoDup (currentQ : Question) (allQuestions : list Question) (g : RNG) :
  NoDup (distractorsOf currentQ allQuestions g).
Proof.
  unfold distractorsOf.
  eapply sublist_NoDup; [|apply sublist_take].
  apply shuffle_NoDup, new_Set_NoDup.
Qed.

Lemma distractorsOf_length (currentQ : Question) (allQuestions : list Question) (g : RNG) :
  length (distractorsOf currentQ allQuestions g)
  = (3 `min` distinctAnswers (selectedPool currentQ allQuestions))%nat.
Proof.
  unfold distractorsOf, distinctAnswers.
  by rewrite length_take, shuffle_length, new_Set_length.
Qed.

Lemma elem_of_distractorsOf (currentQ : Question) (allQuestions : list Question)
    (g : RNG) (t : string) :
  t ∈ distractorsOf currentQ allQuestions g ->
  exists u, u ∈ selectedPool currentQ allQuestions /\ Question.a u = t.
Proof.
  unfold distractorsOf. intros Ht.
  apply (subseteq_take 3) in Ht.
  rewrite elem_of_shuffle, elem_of_new_Set, list_elem_of_fmap in Ht.
  destruct Ht as (u & -> & Hu). by exists u.
Qed.

(** C10. The list returned has [min(3, d) + 1] entries, [d] being the
    number of distinct answer texts in the selected pool, and the target's
    answer is among them: with fewer than three distractors to be had the
    list is short, it is neither padded nor refused. *)
Theorem generateOptions_length (currentQ : Question) (allQuestions : list Question)
    (g : RNG) :
  length (generateOptions currentQ allQuestions g).1
    = (3 `min` distinctAnswers (selectedPool currentQ allQuestions) + 1)%nat /\
  Question.a currentQ ∈ (generateOptions currentQ allQuestions g).1.
Proof.
  rewrite generateOptions_Permutation. split.
  - by rewrite length_app, distractorsOf_length.
  - apply elem_of_app. right. apply list_elem_of_singleton. reflexivity.
Qed.

(** C8. The pool from which distractors are drawn is exactly the
    same-domain candidates when at least three candidates share the
    target's domain and all candidates otherwise; its answer texts are
    made duplicate-free before the shuffle that selects the distractors. *)
Theorem generateOptions_pool (currentQ : Question) (allQuestions : list Question)
    (g : RNG) :
  exists (pool : list Question) (uniqueAnswers : list string),
    ((3 <= length (sameDomainCandidates currentQ allQuestions))%nat ->
       pool = sameDomainCandidates currentQ allQuestions) /\
    ((length (sameDomainCandidates currentQ allQuestions) < 3)%nat ->
       pool = candidates currentQ allQuestions) /\
    NoDup uniqueAnswers /\
    (forall t : string, t ∈ uniqueAnswers <-> t ∈ Question.a <$> pool) /\
    generateOptions currentQ allQuestions g =
      (let* shuffled := shuffle uniqueAnswers in
       shuffle (take 3 shuffled ++ [Question.a currentQ]))%rand g.
Proof.
  exists (selectedPool currentQ allQuestions),
         (new_Set (Question.a <$> selectedPool currentQ allQuestions)).
  split_and!.
  - intros Hlen. unfold selectedPool. by rewrite decide_True.
  - intros Hlen. unfold selectedPool. rewrite decide_False; [done|lia].
  - apply new_Set_NoDup.
  - apply elem_of_new_Set.
  - by rewrite generateOptions_unfold.
Qed.

(** When the pool has three distinct answer texts to offer and none of
    them is the target's, the options are four, distinct, and the
    target's answer is one of them once. *)
Lemma generateOptions_distinct (currentQ : Question) (allQuestions : list Question)
    (g : RNG) :
  (3 <= distinctAnswers (selectedPool currentQ allQuestions))%nat ->
  (forall u, u ∈ selectedPool currentQ allQuestions ->
             Question.a u <> Question.a currentQ) ->
  length (generateOptions currentQ allQuestions g).1 = 4%nat /\
  NoDup (generateOptions currentQ allQuestions g).1 /\
  length (filter (fun t => t = Question.a currentQ)
                 (generateOptions currentQ allQuestions g).1) = 1%nat.
Proof.
  intros Hd Hother.
  assert (Hnotin : Question.a currentQ ∉ distractorsOf currentQ allQuestions g).
  { intros (u & Hu & Ha)%elem_of_distractorsOf. by apply (Hother u). }
  rewrite generateOptions_Permutation. split_and!.
  - rewrite length_app, distractorsOf_length, Nat.min_l by done. reflexivity.
  - apply NoDup_app. split_and!.
    + apply distractorsOf_NoDup.
    + intros t Ht ->%list_elem_of_singleton. done.
    + apply NoDup_singleton.
  - rewrite filter_app, length_app.
    rewrite filter_none.
    + by rewrite filter_cons_True.
    + apply Forall_forall. intros t Ht ->. done.
Qed.

Lemma candidates_length (target : Question) (universe : list Question) :
  target ∈ universe -> NoDup (Question.id <$> universe) ->
  length universe = S (length (candidates target universe)).
Proof.
  unfold candidates. induction universe as [|u universe IH]; simpl.
  - by intros ?%elem_of_nil.
  - rewrite NoDup_cons, elem_of_cons, filter_cons.
    intros [->|Hin] [Hu Hnd].
    + rewrite decide_False by tauto. f_equal.
      f_equal. symmetry. apply filter_all, Forall_forall.
      intros x Hx Heq. apply Hu, list_elem_of_fmap. by exists x.
    + rewrite decide_True.
      * simpl. f_equal. by apply IH.
      * intros Heq. apply Hu, list_elem_of_fmap. by exists target.
Qed.

Lemma selectedPool_sublist (target : Question) (universe : list Question) :
  selectedPool target universe `sublist_of` universe.
Proof.
  unfold selectedPool, sameDomainCandidates, candidates.
  case_decide; apply sublist_filter.
Qed.

(** On a bank whose ids are pairwise distinct and whose answer texts are
    pairwise distinct, every question of a universe of at least four has
    such a pool. *)
Lemma generateOptions_four_distinct_bank (currentQ : Question)
    (allQuestions : list Question) (g : RNG) :
  currentQ ∈ allQuestions ->
  NoDup (Question.id <$> allQuestions) ->
  NoDup (Question.a <$> allQuestions) ->
  (4 <= length allQuestions)%nat ->
  length (generateOptions currentQ allQuestions g).1 = 4%nat /\
  NoDup (generateOptions currentQ allQuestions g).1 /\
  length (filter (fun t => t = Question.a currentQ)
                 (generateOptions currentQ allQuestions g).1) = 1%nat.
Proof.
  intros Hin Hids Hanswers Hlen.
  apply generateOptions_distinct.
  - unfold distinctAnswers. rewrite size_list_to_set.
    + rewrite length_fmap. unfold selectedPool. case_decide; [done|].
      pose proof (candidates_length currentQ allQuestions Hin Hids). lia.
    + eapply sublist_NoDup; [exact Hanswers|].
      apply fmap_sublist, selectedPool_sublist.
  - intros u [Hu Hid]%elem_of_selectedPool Ha.
    apply Hid. f_equal.
    by apply (NoDup_fmap_elem_inj Question.a allQuestions).
Qed.

(** C1, as the code has it.  For every question and universe whose
    selected pool (the candidates, or the same-domain candidates when
    there are at least three) has at least three distinct answer texts,
    none of them the question's own, the options are exactly four
    pairwise-distinct strings, exactly one of which is the question's
    answer. *)
Theorem generateOptions_four_distinct (currentQ : Question)
    (allQuestions : list Question) (g : RNG) :
  (3 <= distinctAnswers (selectedPool currentQ allQuestions))%nat ->
  (forall u, u ∈ selectedPool currentQ allQuestions ->
             Question.a u <> Question.a currentQ) ->
  length (generateOptions currentQ allQuestions g).1 = 4%nat /\
  NoDup (generateOptions currentQ allQuestions g).1 /\
  length (filter (fun t => t = Question.a currentQ)
                 (generateOptions currentQ allQuestions g).1) = 1%nat.
Proof. apply generateOptions_distinct. Qed.

Lemma generateOptions_four_distinct_witness :
  (3 <= distinctAnswers (selectedPool qREST bankShared))%nat /\
  (forall u, u ∈ selectedPool qREST bankShared -> Question.a u <> Question.a qREST) /\
  length (generateOptions qREST bankShared sampleRNG).1 = 4%nat /\
  NoDup (generateOptions qREST bankShared sampleRNG).1 /\
  length (filter (fun t => t = Question.a qREST)
                 (generateOptions qREST bankShared sampleRNG).1) = 1%nat.
Proof.
  assert (Hd : (3 <= distinctAnswers (selectedPool qREST bankShared))%nat).
  { vm_compute. lia. }
  assert (Hother : forall u, u ∈ selectedPool qREST bankShared ->
                             Question.a u <> Question.a qREST).
  { apply Forall_forall. compute_done. }
  split; [exact Hd|]. split; [exact Hother|].
  exact (generateOptions_four_distinct qREST bankShared sampleRNG Hd Hother).
Defined.

(** C1, as stated, fails: a universe of four questions in which two
    candidates share an answer text yields three options. *)
Lemma generateOptions_four_distinct_fails :
  qREST ∈ bankRepeated /\ (4 <= length bankRepeated)%nat /\
  (generateOptions qREST bankRepeated sampleRNG).1 = ["gRPC"; "REST"; "NETCONF"]%string /\
  ~ (length (generateOptions qREST bankRepeated sampleRNG).1 = 4%nat /\
     NoDup (generateOptions qREST bankRepeated sampleRNG).1 /\
     length (filter (fun t => t = Question.a qREST)
                    (generateOptions qREST bankRepeated sampleRNG).1) = 1%nat).
Proof.
  split_and!.
  - apply list_elem_of_In; vm_compute; tauto.
  - vm_compute; lia.
  - vm_compute. reflexivity.
  - intros [Hlen _]. vm_compute in Hlen. discriminate.
Qed.

(** The other way [generateOptions] misses four distinct options: a
    candidate with the target's own answer text is a distractor like any
    other, so that text is offered twice, whatever the draws. *)
Lemma generateOptions_repeats_answer (g : RNG) :
  ~ NoDup (generateOptions qREST bankClash g).1.
Proof.
  rewrite generateOptions_Permutation.
  intros (_ & Hdisjoint & _)%NoDup_app.
  apply (Hdisjoint "REST"%string); [|by apply list_elem_of_singleton].
  unfold distractorsOf. rewrite take_ge.
  - rewrite elem_of_shuffle. apply list_elem_of_In. vm_compute. tauto.
  - by rewrite shuffle_length.
Qed.

(** ** The session *)

Section SessionFacts.
Variable questions : list Question.
Implicit Types (s : State) (g : RNG) (c : Call) (cs : list Call).

Lemma startGame_unfold s g :
  startGame questions s g =
  (let* shuffledDeck := shuffle (filteredUniverse questions (selectedDomain s)) in
   let s1 := s |> setDeck (fun _ => shuffledDeck)
               |> setCurrentIndex 0
               |> setGameState PLAYING
               |> setTimer (fun _ => TIMER_START)
               |> setStats (fun _ => mkStats 0 0 0 0)
               |> setIsActive true in
   match shuffledDeck with
   | first :: _ =>
       let* options := generateOptions first questions in
       ret (s1 |> setCurrentOptions options
               |> setIsAnswered false
               |> setSelectedOption None)
   | [] => ret s1
   end)%rand g.
Proof.
  unfold startGame, filteredUniverse.
  destruct (decide (selectedDomain s ≠ "ALL"%string)) as [Hne|Heq].
  - rewrite decide_False by done. rewrite !bind_run.
    by destruct (shuffle _ g).1.
  - rewrite decide_True by (by destruct (decide (selectedDomain s = "ALL"%string))).
    rewrite !bind_run. by destruct (shuffle _ g).1.
Qed.

Lemma startGame_stats s g : stats (startGame questions s g).1 = mkStats 0 0 0 0.
Proof.
  rewrite startGame_unfold, bind_run.
  destruct (shuffle _ g).1; [done|]. by rewrite bind_run.
Qed.

Lemma startGame_deck s g :
  deck (startGame questions s g).1
  = (shuffle (filteredUniverse questions (selectedDomain s)) g).1.
Proof.
  rewrite startGame_unfold, bind_run.
  destruct (shuffle _ g).1; [done|]. by rewrite bind_run.
Qed.

Lemma timerEffect_fields s :
  stats (timerEffect s) = stats s /\ deck (timerEffect s) = deck s /\
  currentIndex (timerEffect s) = currentIndex s.
Proof.
  unfold timerEffect.
  destruct (intervalArmed s); [done|].
  by destruct (bool_decide (timer s = 0) && bool_decide (gameState s = PLAYING)).
Qed.

Lemma tick_fields s :
  stats (tick s) = stats s /\ deck (tick s) = deck s /\
  currentIndex (tick s) = currentIndex s.
Proof. unfold tick. by destruct (intervalArmed s). Qed.

(** [deck[nextIndex]] is never [undefined]: [handleNext] always returns. *)
Lemma handleNext_returns s g : exists s', (handleNext questions s g).1 = Returned s'.
Proof.
  unfold handleNext. case_decide as Hlt; [|by eexists].
  destruct (lookup_lt_is_Some_2 (deck s) (currentIndex s + 1)) as [card Hcard]; [lia|].
  rewrite Hcard, bind_run. by eexists.
Qed.

Lemma handleNext_fields s g :
  let s' := settle s (handleNext questions s g).1 in
  stats s' = stats s /\ deck s' = deck s /\
  (currentIndex s <= currentIndex s')%nat.
Proof.
  unfold handleNext. case_decide as Hlt; [|done].
  destruct (deck s !! (currentIndex s + 1)%nat); [|done].
  rewrite bind_run. simpl. split_and!; [done..|lia].
Qed.

(** What answering a card does, case by case. *)
Lemma handleOptionClick_cases option s :
  match handleOptionClick option s with
  | TypeError => isAnswered s = false /\ deck s !! currentIndex s = None
  | Returned s' =>
      currentIndex s' = currentIndex s /\
      ((isAnswered s = true /\ s' = s) \/
       (exists card, isAnswered s = false /\ deck s !! currentIndex s = Some card /\
          isAnswered s' = true /\ selectedOption s' = Some option /\
          ((option = Question.a card /\ deck s' = deck s /\
            stats s' = mkStats (correct (stats s) + 1) (wrong (stats s))
                               (requeued (stats s)) (totalAnswered (stats s) + 1)) \/
           (option <> Question.a card /\ deck s' = deck s ++ [card] /\
            stats s' = mkStats (correct (stats s)) (wrong (stats s) + 1)
                               (requeued (stats s) + 1) (totalAnswered (stats s) + 1)))))
  end.
Proof.
  unfold handleOptionClick.
  destruct (isAnswered s) eqn:Hans; [by split; [|left]|].
  destruct (deck s !! currentIndex s) as [card|] eqn:Hcard; [|done].
  destruct (bool_decide_reflect (option = Question.a card)) as [Heq|Hne]; simpl.
  - split; [done|]. right. exists card. split_and!; try done.
    left. split_and!; try done. f_equal; lia.
  - split; [done|]. right. exists card. split_and!; try done.
    right. split_and!; try done. f_equal; lia.
Qed.

Lemma handleOptionClick_StatsOK option s :
  StatsOK (stats s) -> StatsOK (stats (settle s (handleOptionClick option s))).
Proof.
  intros [Hreq Htot].
  pose proof (handleOptionClick_cases option s) as Hcases.
  destruct (handleOptionClick option s) as [s'|]; simpl; [|done].
  destruct Hcases as [_ [[_ ->]|(card & _ & _ & _ & _ & Hcase)]]; [done|].
  destruct Hcase as [(_ & _ & ->)|(_ & _ & ->)]; unfold StatsOK; simpl; lia.
Qed.

Lemma call_StatsOK c s g :
  StatsOK (stats s) \/ c = CallStartGame -> StatsOK (stats (call questions c s g).1).
Proof.
  intros Hok. unfold call. rewrite bind_run. simpl.
  rewrite (proj1 (timerEffect_fields _)).
  destruct c; simpl.
  - by destruct Hok.
  - rewrite startGame_stats. by split.
  - by destruct Hok.
  - apply handleOptionClick_StatsOK. by destruct Hok.
  - rewrite bind_run. simpl. rewrite (proj1 (handleNext_fields s g)).
    by destruct Hok.
  - by destruct Hok.
  - rewrite (proj1 (tick_fields s)). by destruct Hok.
Qed.

Lemma run_StatsOK cs s g :
  StatsOK (stats s) -> StatsOK (stats (run questions cs s g).1).
Proof.
  revert s g. induction cs as [|c cs IH]; intros s g Hok; [done|].
  simpl. rewrite bind_run. apply IH, call_StatsOK. by left.
Qed.

(** C3. In any session, that is after [startGame] and any calls that
    follow it, whatever the state before, the tallies satisfy
    [requeued = wrong] and [totalAnswered = correct + wrong]; in
    particular after every call of [handleOptionClick]. *)
Theorem stats_invariant cs s g :
  StatsOK (stats (run questions (CallStartGame :: cs) s g).1).
Proof.
  simpl. rewrite bind_run. apply run_StatsOK, call_StatsOK. by right.
Qed.

(** C5. On a card that is already answered [handleOptionClick] returns
    the state it was given: tallies, deck, chosen option and answered
    flag are unchanged, for every option. *)
Theorem handleOptionClick_answered option s :
  isAnswered s = true ->
  handleOptionClick option s = Returned s /\
  forall g, call questions (CallHandleOptionClick option) s g = (timerEffect s, g).
Proof.
  intros Hans. unfold call, handleOptionClick. rewrite Hans. done.
Qed.

Lemma call_monotone c s g :
  c <> CallStartGame ->
  (currentIndex s <= currentIndex (call questions c s g).1)%nat /\
  deck s `prefix_of` deck (call questions c s g).1.
Proof.
  intros Hc. unfold call. rewrite bind_run. simpl.
  destruct (timerEffect_fields
              (match c with
               | CallSetSelectedDomain value => ret (s |> setSelectedDomain value)
               | CallStartGame => startGame questions s
               | CallHandleExit => ret (handleExit s)
               | CallHandleOptionClick option =>
                   ret (settle s (handleOptionClick option s))
               | CallHandleNext =>
                   (let* o := handleNext questions s in ret (settle s o))%rand
               | CallNewQuiz => ret (s |> setGameState SETUP)
               | CallTick => ret (tick s)
               end g).1) as (_ & -> & ->).
  destruct c; simpl; try done.
  - pose proof (handleOptionClick_cases option s) as Hcases.
    destruct (handleOptionClick option s) as [s'|]; simpl; [|done].
    destruct Hcases as [-> [[_ ->]|(card & _ & _ & _ & _ & Hcase)]]; [done|].
    split; [done|].
    destruct Hcase as [(_ & -> & _)|(_ & -> & _)]; [done|].
    by apply prefix_app_r.
  - rewrite bind_run. simpl.
    destruct (handleNext_fields s g) as (_ & -> & Hidx). done.
  - by destruct (tick_fields s) as (_ & -> & ->).
Qed.

(** C7. Between one [startGame] and the next, whatever is called, the
    cursor never decreases and the deck only grows at its tail, so its
    length never decreases; a wrong answer appends the current card to
    the tail of the deck and leaves the cursor where it is. *)
Theorem deck_monotone cs s g :
  Forall (fun c => c <> CallStartGame) cs ->
  ((currentIndex s <= currentIndex (run questions cs s g).1)%nat /\
   (length (deck s) <= length (deck (run questions cs s g).1))%nat /\
   deck s `prefix_of` deck (run questions cs s g).1) /\
  (forall option card,
     isAnswered s = false -> deck s !! currentIndex s = Some card ->
     option <> Question.a card ->
     exists s', handleOptionClick option s = Returned s' /\
                deck s' = deck s ++ [card] /\
                currentIndex s' = currentIndex s).
Proof.
  intros Hcs. split.
  - assert (Hmono : (currentIndex s <= currentIndex (run questions cs s g).1)%nat /\
                    deck s `prefix_of` deck (run questions cs s g).1).
    { revert s g. induction Hcs as [|c cs Hc _ IH]; intros s g; [done|].
      simpl. rewrite bind_run.
      destruct (call_monotone c s g Hc) as [Hidx Hdeck].
      destruct (IH (call questions c s g).1 (call questions c s g).2) as [Hidx' Hdeck'].
      split; [lia|by etrans]. }
    destruct Hmono as [Hidx Hdeck]. split_and!; [done| |done].
    by apply prefix_length.
  - intros option card Hans Hcard Hne.
    pose proof (handleOptionClick_cases option s) as Hcases.
    destruct (handleOptionClick option s) as [s'|]; [|destruct Hcases; congruence].
    exists s'. destruct Hcases as [Hidx [[? _]|(card' & _ & Hcard' & _ & _ & Hcase)]];
      [congruence|].
    assert (card' = card) as -> by congruence.
    destruct Hcase as [[? _]|(_ & Hdeck & _)]; done.
Qed.

(** C2, as the code has it.  When the filtered universe is empty
    [startGame] still enters PLAYING: the deck is the empty array, the
    cursor zero, the tallies zero, the timer at its start value and
    running; options, chosen option and answered flag are left as they
    were, no draw is consumed, and no card is shown. *)
Theorem startGame_empty s g :
  filteredUniverse questions (selectedDomain s) = [] ->
  startGame questions s g =
    (s |> setDeck (fun _ => [])
       |> setCurrentIndex 0
       |> setGameState PLAYING
       |> setTimer (fun _ => TIMER_START)
       |> setStats (fun _ => mkStats 0 0 0 0)
       |> setIsActive true, g) /\
  gameState (startGame questions s g).1 = PLAYING /\
  cardShown (startGame questions s g).1 = false.
Proof.
  intros Hempty.
  assert (Hstart : startGame questions s g =
    (s |> setDeck (fun _ => [])
       |> setCurrentIndex 0
       |> setGameState PLAYING
       |> setTimer (fun _ => TIMER_START)
       |> setStats (fun _ => mkStats 0 0 0 0)
       |> setIsActive true, g)).
  { rewrite startGame_unfold, Hempty, bind_run. reflexivity. }
  rewrite Hstart. done.
Qed.
End SessionFacts.

Lemma handleOptionClick_answered_witness :
  isAnswered sampleAnswered = true /\
  handleOptionClick "REST" sampleAnswered = Returned sampleAnswered /\
  forall g, call bankDistinct (CallHandleOptionClick "REST") sampleAnswered g
            = (timerEffect sampleAnswered, g).
Proof.
  split; [reflexivity|].
  apply (handleOptionClick_answered bankDistinct "REST" sampleAnswered).
  reflexivity.
Defined.

Lemma deck_monotone_witness :
  Forall (fun c => c <> CallStartGame)
         [CallHandleOptionClick "YANG"; CallHandleNext; CallTick] /\
  (currentIndex samplePlaying <=
   currentIndex (run bankDistinct [CallHandleOptionClick "YANG"; CallHandleNext; CallTick]
                     samplePlaying sampleRNG).1)%nat.
Proof.
  assert (Hcs : Forall (fun c => c <> CallStartGame)
                  [CallHandleOptionClick "YANG"; CallHandleNext; CallTick]).
  { repeat constructor; discriminate. }
  split; [exact Hcs|].
  apply (deck_monotone bankDistinct _ samplePlaying sampleRNG Hcs).
Defined.

(** C4, as stated, fails: [handleNext] called on a card that is not
    answered moves the cursor and replaces the options. *)
Lemma handleNext_ignores_answered :
  isAnswered samplePlaying = false /\
  exists s', (handleNext bankDistinct samplePlaying sampleRNG).1 = Returned s' /\
    currentIndex samplePlaying = 0%nat /\ currentIndex s' = 1%nat /\
    currentOptions s' <> currentOptions samplePlaying.
Proof.
  split; [reflexivity|]. eexists. split; [reflexivity|].
  split_and!; [reflexivity..|]. vm_compute. discriminate.
Qed.

(** On the last card it ends the session, answered or not. *)
Lemma handleNext_ignores_answered_last :
  let s := samplePlaying |> setCurrentIndex 1 in
  isAnswered s = false /\
  exists s', (handleNext bankDistinct s sampleRNG).1 = Returned s' /\
    gameState s' = SUMMARY /\ isActive s' = false.
Proof. split; [reflexivity|]. eexists. by split_and!. Qed.

(** C2, as stated, fails: with no question of the chosen domain
    [startGame] leaves the setup page. *)
Lemma startGame_empty_leaves_setup :
  filteredUniverse bankDistinct (selectedDomain sampleSetup) = [] /\
  gameState sampleSetup = SETUP /\
  gameState (startGame bankDistinct sampleSetup sampleRNG).1 = PLAYING /\
  gameState (call bankDistinct CallStartGame sampleSetup sampleRNG).1 <> SETUP.
Proof. split_and!; [reflexivity..|]. vm_compute. discriminate. Qed.

Lemma startGame_empty_witness :
  filteredUniverse bankDistinct (selectedDomain sampleSetup) = [] /\
  gameState (startGame bankDistinct sampleSetup sampleRNG).1 = PLAYING.
Proof.
  split; [reflexivity|].
  apply (startGame_empty bankDistinct sampleSetup sampleRNG). reflexivity.
Defined.

(** A click that the page offers never throws: the option buttons are
    rendered only when there is a current card. *)
Lemma offered_option_returns (s : State) (idx : nat) (option : string) :
  offered (OptionButton idx) s = Some (CallHandleOptionClick option) ->
  exists s', handleOptionClick option s = Returned s'.
Proof.
  unfold offered, cardShown, currentCard.
  destruct (bool_decide_reflect (gameState s = PLAYING)); [|done].
  destruct (bool_decide_reflect (is_Some (deck s !! currentIndex s)))
    as [[card Hcard]|]; [|done].
  destruct (isAnswered s) eqn:Hans; [done|]. intros _.
  pose proof (handleOptionClick_cases option s) as Hcases.
  destruct (handleOptionClick option s) as [s'|]; [by exists s'|].
  destruct Hcases; congruence.
Qed.

(** ** accuracy *)

Lemma accuracy_nothing_answered (st : Stats) :
  totalAnswered st = 0 -> integerValue (accuracy st) = Some 0.
Proof. unfold accuracy. by intros ->. Qed.

(** C9.  At 23 correct answers out of 40 the percentage is 57.5 exactly
    and rounds to 58; [accuracy] is 57.  The quotient 23/40 is rounded to
    binary64 before it is multiplied by one hundred, and the product,
    57.49999999999999, is below the tie.  Multiplying first keeps the tie
    and gives 58. *)
Theorem accuracy_misses_tie :
  integerValue (accuracy (mkStats 23 17 17 40)) = Some 57 /\
  2 * (100 * 23) = (57 + 58) * 40 /\
  exactPercentage 23 40 = 58 /\
  integerValue (Math_round (Number_div (Number (23 * 100)) (Number 40))) = Some 58.
Proof. by vm_compute. Qed.

(** Those tallies are reached through the page: twenty-three questions,
    seventeen of them missed once. *)
Example accuracy_misses_tie_reached :
  let s := (sessionOfForty sampleRNG).1 in
  gameState s = SUMMARY /\ stats s = mkStats 23 17 17 40 /\
  integerValue (accuracy (stats s)) = Some 57.
Proof. by vm_compute. Qed.

(** The two figures that the specification's scenarios name. *)
Example accuracy_five_of_five : accuracy (mkStats 5 0 0 5) = Number 100.
Proof. reflexivity. Qed.

Example accuracy_two_of_three : accuracy (mkStats 2 1 1 3) = Number 67.
Proof. reflexivity. Qed.

(** The quotient and the product are rounded before [Math.round] sees
    them: 23 of 40 is 57.5 exactly, 57.49999999999999 in binary64. *)
Example accuracy_23_of_40 : accuracy (mkStats 23 17 17 40) = Number 57.
Proof. reflexivity. Qed.

(** In every session of fewer than forty answers the binary64 figure is
    the exact one. *)
Lemma accuracy_exact_below_40 (c w r t : Z) :
  0 <= c <= t -> 0 < t < 40 ->
  integerValue (accuracy (mkStats c w r t)) = Some (exactPercentage c t).
Proof.
  intros Hc Ht.
  assert (Hall : Forall (fun t' => Forall (fun c' =>
            integerValue (accuracy (mkStats c' 0 0 t')) = Some (exactPercentage c' t'))
          (seqZ 0 (t' + 1))) (seqZ 1 39)).
  { compute_done. }
  rewrite Forall_forall in Hall.
  specialize (Hall t). rewrite elem_of_seqZ in Hall.
  specialize (Hall ltac:(lia)). rewrite Forall_forall in Hall.
  specialize (Hall c). rewrite elem_of_seqZ in Hall.
  exact (Hall ltac:(lia)).
Qed.

(** The same figure with the multiplication first,
    [Math.round(correct * 100 / totalAnswered)], is the exact one in every
    session of up to a hundred answers, the ties that [accuracy] misses
    there (23 of 40, 46 of 80) included. *)
Lemma multiply_first_exact_to_100 (c t : Z) :
  0 <= c <= t -> 0 < t <= 100 ->
  integerValue (Math_round (Number_div (Number (c * 100)) (Number t)))
  = Some (exactPercentage c t).
Proof.
  intros Hc Ht.
  assert (Hall : Forall (fun t' => Forall (fun c' =>
            integerValue (Math_round (Number_div (Number (c' * 100)) (Number t')))
            = Some (exactPercentage c' t'))
          (seqZ 0 (t' + 1))) (seqZ 1 100)).
  { compute_done. }
  rewrite Forall_forall in Hall.
  specialize (Hall t). rewrite elem_of_seqZ in Hall.
  specialize (Hall ltac:(lia)). rewrite Forall_forall in Hall.
  specialize (Hall c). rewrite elem_of_seqZ in Hall.
  exact (Hall ltac:(lia)).
Qed.

(** ** A session, run

    Two questions; the first card is answered wrongly, the second
    correctly, the first again, requeued, correctly: the deck has grown to
    three cards and the session is over with two correct answers out of
    three, 67 percent. *)
Example session_with_requeue :
  let s := (run [qREST; qNETCONF]
                [CallStartGame;
                 CallHandleOptionClick "REST"; CallHandleNext;
                 CallHandleOptionClick "REST"; CallHandleNext;
                 CallHandleOptionClick "NETCONF"; CallHandleNext]
                initialState sampleRNG).1 in
  deck s = [qNETCONF; qREST; qNETCONF] /\
  stats s = mkStats 2 1 1 3 /\
  gameState s = SUMMARY /\ isActive s = false /\
  accuracy (stats s) = Number 67.
Proof. vm_compute. by split_and!. Qed.

(** * Further facts *)

(** ** formatTime *)

Lemma padStart_two_digits (n : Z) :
  0 <= n < 100 -> padStart 2 "0" (Number_toString n) = twoDigits n.
Proof.
  intros Hn.
  assert (Hall : Forall (fun k => padStart 2 "0" (Number_toString k) = twoDigits k)
                        (seqZ 0 100)) by compute_done.
  rewrite Forall_forall in Hall. apply Hall, elem_of_seqZ. lia.
Qed.

Lemma digitChar_inj (m n : Z) :
  0 <= m < 10 -> 0 <= n < 10 -> digitChar m = digitChar n -> m = n.
Proof.
  intros Hm Hn Heq. unfold digitChar in Heq.
  apply (f_equal Ascii.nat_of_ascii) in Heq.
  rewrite !Ascii.nat_ascii_embedding in Heq by lia. lia.
Qed.

Lemma formatTime_digits (seconds : Z) :
  0 <= seconds < 6000 ->
  formatTime seconds
  = twoDigits (seconds / 60) +:+ ":" +:+ twoDigits (seconds mod 60).
Proof.
  intros Hs. unfold formatTime. rewrite Z.rem_mod_nonneg by lia.
  rewrite !padStart_two_digits; [done| |].
  - pose proof (Z.mod_pos_bound seconds 60). lia.
  - split; [apply Z.div_pos; lia|]. apply Z.div_lt_upper_bound; lia.
Qed.

(** X1. For a number of seconds from 0 up to 99:59 the clock text is two
    digits of minutes, a colon, two digits of seconds, zero-padded. *)
Theorem formatTime_shape (seconds : Z) :
  0 <= seconds < 6000 ->
  formatTime seconds
  = twoDigits (seconds / 60) +:+ ":" +:+ twoDigits (seconds mod 60) /\
  String.length (formatTime seconds) = 5%nat.
Proof.
  intros Hs. rewrite (formatTime_digits seconds Hs). by split.
Qed.

Lemma formatTime_shape_witness :
  0 <= 754 < 6000 /\ formatTime 754 = "12:34"%string.
Proof.
  split; [lia|].
  rewrite (proj1 (formatTime_shape 754 ltac:(lia))). reflexivity.
Defined.

(** X2. Two different numbers of seconds below 6000 never show as the
    same clock text. *)
Theorem formatTime_inj (a b : Z) :
  0 <= a < 6000 -> 0 <= b < 6000 -> formatTime a = formatTime b -> a = b.
Proof.
  intros Ha Hb Heq.
  rewrite (formatTime_digits a Ha), (formatTime_digits b Hb) in Heq.
  unfold twoDigits in Heq. simpl in Heq.
  injection Heq as Hm1 Hm0 Hs1 Hs0.
  pose proof (Z.mod_pos_bound a 60). pose proof (Z.mod_pos_bound b 60).
  assert (0 <= a / 60 < 100).
  { split; [apply Z.div_pos; lia|]. apply Z.div_lt_upper_bound; lia. }
  assert (0 <= b / 60 < 100).
  { split; [apply Z.div_pos; lia|]. apply Z.div_lt_upper_bound; lia. }
  apply digitChar_inj in Hm1, Hm0, Hs1, Hs0;
    try (split; [apply Z.div_pos; lia|apply Z.div_lt_upper_bound; lia]);
    try (apply Z.mod_pos_bound; lia).
  rewrite (Z.div_mod a 60), (Z.div_mod b 60) by lia.
  rewrite (Z.div_mod (a / 60) 10), (Z.div_mod (b / 60) 10) by lia.
  rewrite (Z.div_mod (a mod 60) 10), (Z.div_mod (b mod 60) 10) by lia.
  congruence.
Qed.

Lemma formatTime_inj_witness :
  0 <= 754 < 6000 /\ 0 <= 24 * 30 + 34 < 6000 /\ 754 = 24 * 30 + 34.
Proof.
  assert (Ha : 0 <= 754 < 6000) by lia.
  assert (Hb : 0 <= 24 * 30 + 34 < 6000) by lia.
  split; [exact Ha|split; [exact Hb|]].
  apply (formatTime_inj 754 (24 * 30 + 34) Ha Hb). reflexivity.
Defined.

(** ** Reachable states *)

Lemma timerEffect_cases (s : State) :
  timerEffect s = s \/
  (timer s = 0 /\ gameState s = PLAYING /\
   timerEffect s = s |> setIsActive false |> setGameState SUMMARY).
Proof.
  unfold timerEffect. destruct (intervalArmed s); [by left|].
  destruct (bool_decide_reflect (timer s = 0)); [|by left].
  destruct (bool_decide_reflect (gameState s = PLAYING)); [|by left].
  by right.
Qed.

Lemma tick_cases (s : State) :
  tick s = s \/
  (isActive s = true /\ 0 < timer s /\ tick s = s |> setTimer (fun t => t - 1)).
Proof.
  unfold tick, intervalArmed.
  destruct (isActive s); [|by left]. simpl.
  destruct (Z.gtb_spec (timer s) 0); [|by left]. right. split_and!; [done|lia|done].
Qed.

(** What [handleOptionClick] leaves alone, whichever way it goes. *)
Lemma handleOptionClick_frame (option : string) (s : State) :
  let s' := settle s (handleOptionClick option s) in
  timer s' = timer s /\ currentOptions s' = currentOptions s /\
  gameState s' = gameState s /\ isActive s' = isActive s /\
  selectedDomain s' = selectedDomain s.
Proof.
  unfold handleOptionClick. destruct (isAnswered s); [done|].
  destruct (deck s !! currentIndex s); [|done].
  by destruct (negb _).
Qed.

Lemma handleNext_cases (questions : list Question) (s : State) (g : RNG) :
  let s' := settle s (handleNext questions s g).1 in
  ((currentIndex s + 1 < length (deck s))%nat /\
   exists nextCard,
     deck s !! (currentIndex s + 1)%nat = Some nextCard /\
     s' = s |> setCurrentIndex (currentIndex s + 1)
            |> setCurrentOptions (generateOptions nextCard questions g).1
            |> setIsAnswered false
            |> setSelectedOption None) \/
  ((length (deck s) <= currentIndex s + 1)%nat /\
   s' = s |> setIsActive false |> setGameState SUMMARY).
Proof.
  unfold handleNext. case_decide as Hlt.
  - left. split; [lia|].
    destruct (lookup_lt_is_Some_2 (deck s) (currentIndex s + 1)) as [card Hcard]; [lia|].
    rewrite Hcard, bind_run. by exists card.
  - right. split; [lia|done].
Qed.

Lemma generateOptions_has_answer (currentQ : Question) (allQuestions : list Question)
    (g : RNG) :
  Question.a currentQ ∈ (generateOptions currentQ allQuestions g).1.
Proof.
  rewrite generateOptions_Permutation, elem_of_app, list_elem_of_singleton. by right.
Qed.

Lemma filteredUniverse_subseteq (questions : list Question) (selected : string) :
  filteredUniverse questions selected ⊆ questions.
Proof.
  unfold filteredUniverse. case_decide; [done|].
  intros q [_ Hq]%list_elem_of_filter. done.
Qed.

Section Reachable.
Variable questions : list Question.
Implicit Types (s : State) (g : RNG) (c : Call) (cs : list Call).

(** [Inv] reads only these fields. *)
Lemma Inv_frame s s' :
  timer s' = timer s -> deck s' = deck s -> currentIndex s' = currentIndex s ->
  currentOptions s' = currentOptions s -> isAnswered s' = isAnswered s ->
  selectedOption s' = selectedOption s ->
  Inv questions s -> Inv questions s'.
Proof.
  unfold Inv, cursorInDeck, answerOffered, currentCard.
  by intros -> -> -> -> -> ->.
Qed.

Lemma Inv_initialState : Inv questions initialState.
Proof.
  unfold Inv, cursorInDeck, answerOffered, currentCard. simpl. split_and!.
  - done.
  - unfold TIMER_START. lia.
  - by right.
  - done.
  - by intros card ?%elem_of_nil.
  - split; [done|]. by intros [? ?].
Qed.

Lemma Inv_timerEffect s : Inv questions s -> Inv questions (timerEffect s).
Proof.
  destruct (timerEffect_cases s) as [->|(_ & _ & ->)]; [done|].
  by apply Inv_frame.
Qed.

Lemma Inv_tick s : Inv questions s -> Inv questions (tick s).
Proof.
  destruct (tick_cases s) as [->|(_ & Hpos & ->)]; [done|].
  unfold Inv, cursorInDeck, answerOffered, currentCard. simpl.
  intros (Htimer & Hrest). split; [lia|exact Hrest].
Qed.

Lemma Inv_startGame s g : Inv questions s -> Inv questions (startGame questions s g).1.
Proof.
  intros (_ & _ & _ & _ & Hsel).
  pose proof (shuffle_Permutation (filteredUniverse questions (selectedDomain s)) g)
    as Hperm.
  assert (Hin : forall card,
             card ∈ (shuffle (filteredUniverse questions (selectedDomain s)) g).1 ->
             card ∈ questions).
  { intros card. rewrite Hperm. apply filteredUniverse_subseteq. }
  rewrite startGame_unfold, bind_run.
  destruct (shuffle _ g).1 as [|first rest].
  - unfold Inv, cursorInDeck, answerOffered, currentCard. simpl. split_and!;
      [done|unfold TIMER_START; lia|by right|done|done|exact Hsel].
  - rewrite bind_run.
    unfold Inv, cursorInDeck, answerOffered, currentCard. simpl. split_and!.
    + done.
    + unfold TIMER_START; lia.
    + left. lia.
    + intros card [= <-]. apply generateOptions_has_answer.
    + exact Hin.
    + split; [done|]. by intros [? ?].
Qed.

Lemma Inv_handleOptionClick option s :
  Inv questions s -> Inv questions (settle s (handleOptionClick option s)).
Proof.
  intros Hinv.
  destruct (handleOptionClick_frame option s) as (Ht & Hopts & _).
  pose proof (handleOptionClick_cases option s) as Hcases.
  destruct (handleOptionClick option s) as [s'|]; simpl in *; [|exact Hinv].
  destruct Hcases as [Hidx [[_ ->]|(card & _ & Hcard & Hans' & Hsel' & Hcase)]];
    [exact Hinv|].
  destruct Hinv as (Htimer & Hcur & Hans & Hdeck & Hsel).
  assert (Hlt : (currentIndex s < length (deck s))%nat) by (by eapply lookup_lt_Some).
  assert (Hd : deck s' = deck s \/ deck s' = deck s ++ [card]).
  { destruct Hcase as [(_ & -> & _)|(_ & -> & _)]; [by left|by right]. }
  unfold Inv, cursorInDeck, answerOffered, currentCard in *.
  rewrite Ht, Hopts, Hidx, Hans', Hsel'. split_and!.
  - lia.
  - lia.
  - left. destruct Hd as [->| ->]; [done|]. rewrite length_app. lia.
  - intros card'. destruct Hd as [->| ->]; [apply Hans|].
    rewrite lookup_app_l by done. apply Hans.
  - intros card'. destruct Hd as [->| ->]; [apply Hdeck|].
    rewrite elem_of_app, list_elem_of_singleton. intros [?| ->]; [by apply Hdeck|].
    apply Hdeck. by eapply list_elem_of_lookup_2.
  - done.
Qed.

Lemma Inv_handleNext s g :
  Inv questions s -> Inv questions (settle s (handleNext questions s g).1).
Proof.
  intros Hinv.
  destruct (handleNext_cases questions s g) as [(Hlt & card & Hcard & ->)|(_ & ->)];
    [|by apply (Inv_frame s)].
  destruct Hinv as (Htimer & _ & _ & Hdeck & _).
  unfold Inv, cursorInDeck, answerOffered, currentCard. simpl. split_and!.
  - lia.
  - lia.
  - by left.
  - rewrite Hcard. intros ? [= <-]. apply generateOptions_has_answer.
  - done.
  - split; [done|]. by intros [? ?].
Qed.

Lemma Inv_call c s g : Inv questions s -> Inv questions (call questions c s g).1.
Proof.
  intros Hinv. unfold call. rewrite bind_run. simpl. apply Inv_timerEffect.
  destruct c; simpl.
  - by apply (Inv_frame s).
  - by apply Inv_startGame.
  - by apply (Inv_frame s).
  - by apply Inv_handleOptionClick.
  - rewrite bind_run. simpl. by apply Inv_handleNext.
  - by apply (Inv_frame s).
  - by apply Inv_tick.
Qed.

Lemma Inv_run cs s g : Inv questions s -> Inv questions (run questions cs s g).1.
Proof.
  revert s g. induction cs as [|c cs IH]; intros s g Hinv; [done|].
  simpl. rewrite bind_run. by apply IH, Inv_call.
Qed.

Lemma Inv_reachable cs g : Inv questions (run questions cs initialState g).1.
Proof. apply Inv_run, Inv_initialState. Qed.
End Reachable.

(** X3. Whatever is called, from the initial state on, the timer stays
    between zero and its start value, so the clock always reads as two
    digits of minutes, a colon and two digits of seconds. *)
Theorem timer_in_budget (questions : list Question) (cs : list Call) (g : RNG) :
  let s := (run questions cs initialState g).1 in
  0 <= timer s <= TIMER_START /\
  formatTime (timer s)
  = twoDigits (timer s / 60) +:+ ":" +:+ twoDigits (timer s mod 60).
Proof.
  destruct (Inv_reachable questions cs g) as (Htimer & _).
  split; [exact Htimer|]. apply formatTime_digits. unfold TIMER_START in Htimer. lia.
Qed.

(** X4. Whatever is called, from the initial state on, the cursor points
    into the deck unless the deck is empty; with a card in the deck there
    is a current card, and neither [handleOptionClick] nor
    [getOptionStyle] throws. *)
Theorem cursor_in_deck (questions : list Question) (cs : list Call) (g : RNG) :
  let s := (run questions cs initialState g).1 in
  cursorInDeck s /\
  (deck s <> [] ->
   is_Some (currentCard s) /\
   forall option, handleOptionClick option s <> TypeError /\
                  getOptionStyle option s <> TypeError).
Proof.
  destruct (Inv_reachable questions cs g) as (_ & Hcur & _).
  split; [exact Hcur|]. intros Hne.
  destruct Hcur as [Hlt|[? _]]; [|done].
  destruct (lookup_lt_is_Some_2 _ _ Hlt) as [card Hcard].
  split; [by exists card|]. intros option.
  unfold handleOptionClick, getOptionStyle, currentCard. rewrite Hcard.
  split.
  - destruct (isAnswered _); [done|]. by destruct (negb _).
  - destruct (negb _); [done|]. by repeat case_match.
Qed.

(** X5. Whatever is called, from the initial state on, the answer of the
    current card is among the options on display. *)
Theorem answer_always_offered (questions : list Question) (cs : list Call) (g : RNG)
    (card : Question) :
  let s := (run questions cs initialState g).1 in
  currentCard s = Some card -> Question.a card ∈ currentOptions s.
Proof.
  destruct (Inv_reachable questions cs g) as (_ & _ & Hans & _). apply Hans.
Qed.

Lemma answer_always_offered_witness :
  currentCard (run bankDistinct [CallStartGame] initialState sampleRNG).1 = Some qYANG /\
  Question.a qYANG ∈ currentOptions (run bankDistinct [CallStartGame] initialState sampleRNG).1.
Proof.
  split; [reflexivity|].
  apply (answer_always_offered bankDistinct [CallStartGame] sampleRNG qYANG).
  reflexivity.
Defined.

(** X6. Every card of the deck, requeued ones included, is a question of
    the bank. *)
Theorem deck_from_bank (questions : list Question) (cs : list Call) (g : RNG) :
  deck (run questions cs initialState g).1 ⊆ questions.
Proof.
  destruct (Inv_reachable questions cs g) as (_ & _ & _ & Hdeck & _). exact Hdeck.
Qed.

(** X7. The answered flag is set exactly when an option is recorded as
    chosen. *)
Theorem answered_iff_selected (questions : list Question) (cs : list Call) (g : RNG) :
  let s := (run questions cs initialState g).1 in
  isAnswered s = true <-> is_Some (selectedOption s).
Proof.
  destruct (Inv_reachable questions cs g) as (_ & _ & _ & _ & Hsel). exact Hsel.
Qed.

(** ** Accounting within a session *)

Lemma call_deck_wrong (questions : list Question) (c : Call) (s : State) (g : RNG) :
  c <> CallStartGame ->
  Z.of_nat (length (deck (call questions c s g).1)) - wrong (stats (call questions c s g).1)
  = Z.of_nat (length (deck s)) - wrong (stats s).
Proof.
  intros Hc. unfold call. rewrite bind_run. simpl.
  match goal with |- context [timerEffect ?x] =>
    destruct (timerEffect_fields x) as (-> & -> & _) end.
  destruct c; simpl; try done.
  - pose proof (handleOptionClick_cases option s) as Hcases.
    destruct (handleOptionClick option s) as [s'|]; simpl; [|done].
    destruct Hcases as [_ [[_ ->]|(card & _ & _ & _ & _ & Hcase)]]; [done|].
    destruct Hcase as [(_ & -> & ->)|(_ & -> & ->)]; simpl; [done|].
    rewrite length_app. simpl. lia.
  - rewrite bind_run. simpl.
    by destruct (handleNext_fields questions s g) as (-> & -> & _).
  - by destruct (tick_fields s) as (-> & -> & _).
Qed.

(** X8. Within a session the deck is as long as the filtered universe it
    started from plus the number of wrong answers so far. *)
Theorem deck_length_accounting (questions : list Question) (s0 : State)
    (cs : list Call) (g : RNG) :
  Forall (fun c => c <> CallStartGame) cs ->
  let s := (run questions (CallStartGame :: cs) s0 g).1 in
  Z.of_nat (length (deck s))
  = Z.of_nat (length (filteredUniverse questions (selectedDomain s0)))
    + wrong (stats s).
Proof.
  intros Hcs. simpl. rewrite bind_run.
  assert (Hstart :
    Z.of_nat (length (deck (call questions CallStartGame s0 g).1))
    - wrong (stats (call questions CallStartGame s0 g).1)
    = Z.of_nat (length (filteredUniverse questions (selectedDomain s0)))).
  { unfold call. rewrite bind_run. simpl.
    match goal with |- context [timerEffect ?x] =>
      destruct (timerEffect_fields x) as (-> & -> & _) end.
    rewrite startGame_stats, startGame_deck, shuffle_length. simpl. lia. }
  revert Hstart.
  generalize (call questions CallStartGame s0 g).1 (call questions CallStartGame s0 g).2.
  induction Hcs as [|c cs Hc _ IH]; intros s1 g1 Hs1; simpl; [lia|].
  rewrite bind_run. apply IH. by rewrite call_deck_wrong.
Qed.

Lemma deck_length_accounting_witness :
  Forall (fun c => c <> CallStartGame)
         [CallHandleOptionClick "nope"; CallHandleNext; CallTick] /\
  Z.of_nat (length (deck (run bankDistinct
     (CallStartGame :: [CallHandleOptionClick "nope"; CallHandleNext; CallTick])
     initialState sampleRNG).1)) = 6.
Proof.
  assert (Hcs : Forall (fun c => c <> CallStartGame)
                  [CallHandleOptionClick "nope"; CallHandleNext; CallTick]).
  { repeat constructor; discriminate. }
  split; [exact Hcs|].
  rewrite (deck_length_accounting bankDistinct initialState _ sampleRNG Hcs).
  reflexivity.
Defined.

(** ** The timer *)

Lemma timerEffect_running (s : State) : 0 < timer s -> timerEffect s = s.
Proof.
  intros Hpos. destruct (timerEffect_cases s) as [->|(Hzero & _)]; [done|lia].
Qed.

Lemma call_tick_running (questions : list Question) (s : State) (g : RNG) :
  gameState s = PLAYING -> isActive s = true -> 0 < timer s ->
  let s' := (call questions CallTick s g).1 in
  timer s' = timer s - 1 /\
  deck s' = deck s /\ stats s' = stats s /\ currentIndex s' = currentIndex s /\
  (1 < timer s -> gameState s' = PLAYING /\ isActive s' = true) /\
  (timer s = 1 -> gameState s' = SUMMARY /\ isActive s' = false).
Proof.
  intros Hplaying Hactive Hpos.
  unfold call, tick, timerEffect, intervalArmed. rewrite bind_run. simpl.
  rewrite Hactive. simpl.
  destruct (Z.gtb_spec (timer s) 0); [|lia]. simpl. rewrite Hactive. simpl.
  destruct (Z.gtb_spec (timer s - 1) 0); simpl.
  - split_and!; try done. lia.
  - rewrite bool_decide_true by lia. rewrite bool_decide_true by done. simpl.
    split_and!; try done. lia.
Qed.

Lemma run_app (questions : list Question) (cs1 cs2 : list Call) (s : State) (g : RNG) :
  run questions (cs1 ++ cs2) s g
  = run questions cs2 (run questions cs1 s g).1 (run questions cs1 s g).2.
Proof.
  revert s g. induction cs1 as [|c cs1 IH]; intros s g; simpl; [done|].
  rewrite !bind_run. apply IH.
Qed.

Lemma run_one (questions : list Question) (c : Call) (s : State) (g : RNG) :
  (run questions [c] s g).1 = (call questions c s g).1.
Proof. simpl. by rewrite bind_run. Qed.

Lemma run_ticks_playing (questions : list Question) (k : nat) (s : State) (g : RNG) :
  gameState s = PLAYING -> isActive s = true -> Z.of_nat k < timer s ->
  let s' := (run questions (replicate k CallTick) s g).1 in
  gameState s' = PLAYING /\ isActive s' = true /\ timer s' = timer s - Z.of_nat k /\
  deck s' = deck s /\ stats s' = stats s /\ currentIndex s' = currentIndex s.
Proof.
  revert s g. induction k as [|k IH]; intros s g Hplaying Hactive Hlt.
  - simpl. split_and!; try done. lia.
  - simpl. rewrite bind_run.
    destruct (call_tick_running questions s g Hplaying Hactive)
      as (Htimer & Hdeck & Hstats & Hidx & Hmore & _); [lia|].
    destruct Hmore as [Hplaying' Hactive']; [lia|].
    destruct (IH (call questions CallTick s g).1 (call questions CallTick s g).2
                Hplaying' Hactive') as (? & ? & Ht & Hd & Hst & Hi); [lia|].
    split_and!; try done; [lia|congruence..].
Qed.

(** X9. A running session lasts exactly as many ticks as the timer shows:
    before the last of them it is still in play, and the last one stops
    the timer and ends the session in SUMMARY, answered card or not, with
    deck, tallies and cursor as the ticks found them. *)
Theorem timer_runs_out (questions : list Question) (s : State) (g : RNG) :
  gameState s = PLAYING -> isActive s = true -> 0 < timer s ->
  (forall k : nat, Z.of_nat k < timer s ->
     gameState (run questions (replicate k CallTick) s g).1 = PLAYING) /\
  let s' := (run questions (replicate (Z.to_nat (timer s)) CallTick) s g).1 in
  gameState s' = SUMMARY /\ isActive s' = false /\ timer s' = 0 /\
  deck s' = deck s /\ stats s' = stats s /\ currentIndex s' = currentIndex s.
Proof.
  intros Hplaying Hactive Hpos. split.
  - intros k Hk. by apply run_ticks_playing.
  - destruct (Z.to_nat (timer s)) as [|n] eqn:Hn; [lia|].
    rewrite replicate_S_end, run_app, run_one.
    destruct (run_ticks_playing questions n s g Hplaying Hactive)
      as (Hp & Ha & Ht & Hd & Hst & Hi); [lia|].
    destruct (call_tick_running questions _ (run questions (replicate n CallTick) s g).2
                Hp Ha) as (Ht' & Hd' & Hst' & Hi' & _ & Hlast); [lia|].
    destruct Hlast as [Hsum Hoff]; [lia|].
    split_and!; try done; [lia|congruence..].
Qed.

Lemma timer_runs_out_witness :
  gameState samplePlaying = PLAYING /\ isActive samplePlaying = true /\
  0 < timer samplePlaying /\
  gameState (run bankDistinct (replicate (Z.to_nat (timer samplePlaying)) CallTick)
               samplePlaying sampleRNG).1 = SUMMARY.
Proof.
  split_and!; [reflexivity|reflexivity|reflexivity|].
  apply (timer_runs_out bankDistinct samplePlaying sampleRNG); reflexivity.
Defined.

(** ** What the page can reach *)

Lemma pageInv_frame (s s' : State) :
  deck s' = deck s -> stats s' = stats s -> currentIndex s' = currentIndex s ->
  isAnswered s' = isAnswered s ->
  (isActive s' = true -> gameState s' = PLAYING) ->
  pageInv s -> pageInv s'.
Proof.
  unfold pageInv. intros -> -> -> -> Hactive [_ Hcount]. by split.
Qed.

Lemma pageInv_timerEffect (s : State) : pageInv s -> pageInv (timerEffect s).
Proof.
  destruct (timerEffect_cases s) as [->|(_ & _ & ->)]; [done|].
  by apply pageInv_frame.
Qed.

Lemma pageInv_call_offered (questions : list Question) (c : Control) (k : Call)
    (s : State) (g : RNG) :
  offered c s = Some k -> pageInv s -> pageInv (call questions k s g).1.
Proof.
  intros Hoffered Hinv. unfold call. rewrite bind_run. simpl.
  apply pageInv_timerEffect.
  destruct Hinv as [Hactive Hcount].
  destruct c; simpl in Hoffered.
  - (* EXIT *)
    destruct (bool_decide_reflect (gameState s = PLAYING)); simplify_eq/=.
    by apply (pageInv_frame s).
  - (* the domain select *)
    destruct (bool_decide_reflect (gameState s = SETUP)) as [Hsetup|]; simplify_eq/=.
    apply (pageInv_frame s); try done;
      simpl; intros Ha; specialize (Hactive Ha); congruence.
  - (* START QUIZ *)
    destruct (bool_decide_reflect (gameState s = SETUP)); simplify_eq/=.
    rewrite startGame_unfold, bind_run.
    destruct (shuffle _ g).1 as [|first rest]; [by split|].
    rewrite bind_run. by split.
  - (* an option button *)
    unfold cardShown in Hoffered.
    destruct (bool_decide_reflect (gameState s = PLAYING)); [|done].
    destruct (bool_decide_reflect (is_Some (currentCard s))) as [[card Hcard]|]; [|done].
    destruct (isAnswered s) eqn:Hans; [done|]. simpl in Hoffered.
    destruct (currentOptions s !! idx) as [option|]; simplify_eq/=.
    destruct (handleOptionClick_frame option s) as (_ & _ & Hgs & Hact & _).
    pose proof (handleOptionClick_cases option s) as Hcases.
    destruct (handleOptionClick option s) as [s'|]; simpl in *;
      [|split; [exact Hactive|rewrite Hans; exact Hcount]].
    destruct Hcases as [Hidx [[? _]|(card' & _ & Hcard' & Hans' & _ & Hcase)]];
      [congruence|].
    split; [rewrite Hgs, Hact; exact Hactive|].
    intros _. rewrite Hidx, Hans'.
    assert (Hne : deck s <> []).
    { intros Hnil. unfold currentCard in Hcard. by rewrite Hnil in Hcard. }
    specialize (Hcount Hne).
    destruct Hcase as [(_ & _ & ->)|(_ & _ & ->)]; simpl; lia.
  - (* NEXT *)
    unfold cardShown in Hoffered.
    destruct (bool_decide_reflect (gameState s = PLAYING)); [|done].
    destruct (bool_decide_reflect (is_Some (currentCard s))) as [[card Hcard]|]; [|done].
    destruct (isAnswered s) eqn:Hans; simplify_eq/=.
    rewrite bind_run. simpl.
    destruct (handleNext_cases questions s g) as [(Hlt & next & _ & ->)|(_ & ->)].
    + split; [exact Hactive|]. simpl. intros Hne. specialize (Hcount Hne). lia.
    + apply (pageInv_frame s); try done.
      split; [exact Hactive|rewrite Hans; exact Hcount].
  - (* NEW QUIZ *)
    destruct (bool_decide_reflect (gameState s = SUMMARY)) as [Hsummary|]; simplify_eq/=.
    apply (pageInv_frame s); try done; try (by split);
      simpl; intros Ha; specialize (Hactive Ha); congruence.
Qed.

Lemma pageInv_react (questions : list Question) (i : Input) (s : State) (g : RNG) :
  pageInv s -> pageInv (react questions i s g).1.
Proof.
  intros Hinv. destruct i as [c|].
  - simpl. unfold act. destruct (offered c s) as [k|] eqn:Hoffered; [|done].
    by eapply pageInv_call_offered.
  - unfold react, call. rewrite bind_run. simpl. apply pageInv_timerEffect.
    destruct (tick_cases s) as [->|(_ & _ & ->)]; [done|].
    apply (pageInv_frame s); try done. apply Hinv.
Qed.

Lemma pageInv_session (questions : list Question) (inputs : list Input) (g : RNG) :
  pageInv (session questions inputs initialState g).1.
Proof.
  assert (Hgen : forall s g', pageInv s -> pageInv (session questions inputs s g').1).
  { induction inputs as [|i inputs IH]; intros s g' Hinv; simpl; [done|].
    rewrite bind_run. by apply IH, pageInv_react. }
  apply Hgen. by split.
Qed.

(** X10. Through the page the timer is running only while the session is
    in play: every way out of PLAYING (EXIT, the last NEXT, the timeout)
    stops it, and once stopped an interval that still fires changes
    nothing. *)
Theorem timer_only_while_playing (questions : list Question) (inputs : list Input)
    (g : RNG) :
  let s := (session questions inputs initialState g).1 in
  (isActive s = true -> gameState s = PLAYING) /\
  (gameState s <> PLAYING -> isActive s = false /\ tick s = s).
Proof.
  destruct (pageInv_session questions inputs g) as [Hactive _].
  split; [exact Hactive|]. intros Hne.
  assert (Hoff : isActive (session questions inputs initialState g).1 = false).
  { destruct (isActive _); [|done]. by destruct Hne; apply Hactive. }
  split; [exact Hoff|]. unfold tick, intervalArmed. by rewrite Hoff.
Qed.

(** X11. Through the page every card is answered exactly once before the
    cursor moves past it: with a card in the deck, the number of answers
    given is the cursor, plus one if the current card is answered. *)
Theorem answers_follow_cursor (questions : list Question) (inputs : list Input)
    (g : RNG) :
  let s := (session questions inputs initialState g).1 in
  deck s <> [] ->
  totalAnswered (stats s) = Z.of_nat (currentIndex s) + (if isAnswered s then 1 else 0).
Proof.
  destruct (pageInv_session questions inputs g) as [_ Hcount]. exact Hcount.
Qed.

Lemma answers_follow_cursor_witness :
  deck (session bankDistinct [Press StartButton; Press (OptionButton 0)]
          initialState sampleRNG).1 <> [] /\
  totalAnswered (stats (session bankDistinct [Press StartButton; Press (OptionButton 0)]
                          initialState sampleRNG).1) = 1.
Proof.
  assert (Hne : deck (session bankDistinct [Press StartButton; Press (OptionButton 0)]
                        initialState sampleRNG).1 <> []).
  { vm_compute. discriminate. }
  split; [exact Hne|].
  rewrite (answers_follow_cursor bankDistinct _ sampleRNG Hne). reflexivity.
Defined.

(** ** Choosing a domain *)

Lemma Domain_value_inj (d1 d2 : Domain) : Domain_value d1 = Domain_value d2 -> d1 = d2.
Proof. by destruct d1, d2. Qed.

Lemma Domain_value_not_ALL (d : Domain) : Domain_value d <> "ALL"%string.
Proof. by destruct d. Qed.

Lemma filteredUniverse_domain (questions : list Question) (d : Domain) :
  filteredUniverse questions (Domain_value d)
  = filter (fun q => Question.domain q = d) questions.
Proof.
  unfold filteredUniverse. rewrite decide_False by apply Domain_value_not_ALL.
  apply list_filter_iff. intros q. split; [apply Domain_value_inj|by intros ->].
Qed.

Lemma session_cons (questions : list Question) (i : Input) (inputs : list Input)
    (s : State) (g : RNG) :
  session questions (i :: inputs) s g
  = session questions inputs (react questions i s g).1 (react questions i s g).2.
Proof. simpl. by rewrite bind_run. Qed.

(** X12. On the setup page, choosing an entry of the domain list and
    pressing START gives a session in play whose deck is a permutation of
    the whole bank for the first entry and of the questions of the chosen
    domain otherwise, with the cursor on its first card, zero tallies and
    the full time running. *)
Theorem chosen_domain_deck (questions : list Question) (choice : option Domain)
    (s : State) (g : RNG) :
  gameState s = SETUP ->
  let s' := (session questions [Press (DomainSelect choice); Press StartButton] s g).1 in
  deck s' ≡ₚ match choice with
             | None => questions
             | Some d => filter (fun q => Question.domain q = d) questions
             end /\
  gameState s' = PLAYING /\ currentIndex s' = 0%nat /\ stats s' = mkStats 0 0 0 0 /\
  timer s' = TIMER_START /\ isActive s' = true.
Proof.
  intros Hsetup.
  set (value := match choice with None => "ALL"%string | Some d => Domain_value d end).
  assert (Hselect : react questions (Press (DomainSelect choice)) s g
                    = (s |> setSelectedDomain value, g)).
  { unfold react, act, offered. rewrite bool_decide_true by done.
    unfold call. rewrite bind_run. fold value. unfold ret. cbn [fst snd].
    destruct (timerEffect_cases (s |> setSelectedDomain value))
      as [->|(_ & Hplaying & _)]; [done|]. simpl in Hplaying. congruence. }
  rewrite !session_cons, Hselect. cbn [fst snd session].
  assert (Hstart : (react questions (Press StartButton) (s |> setSelectedDomain value) g).1
                   = (startGame questions (s |> setSelectedDomain value) g).1).
  { unfold react, act, offered. cbn [gameState setSelectedDomain].
    rewrite bool_decide_true by done.
    unfold call. rewrite bind_run. unfold ret. cbn [fst snd].
    apply timerEffect_running.
    rewrite startGame_unfold, bind_run.
    destruct (shuffle _ g).1; [done|]. by rewrite bind_run. }
  unfold ret. cbn [fst]. rewrite Hstart.
  rewrite startGame_deck, startGame_stats, shuffle_Permutation. simpl selectedDomain.
  split.
  { unfold value. destruct choice as [d|]; [by rewrite filteredUniverse_domain|done]. }
  rewrite startGame_unfold, bind_run.
  destruct (shuffle _ g).1; [done|]. by rewrite bind_run.
Qed.

Lemma chosen_domain_deck_witness :
  gameState initialState = SETUP /\
  deck (session bankDistinct [Press (DomainSelect (Some ACI)); Press StartButton]
          initialState sampleRNG).1 ≡ₚ [qAPIC].
Proof.
  split; [reflexivity|].
  apply (chosen_domain_deck bankDistinct (Some ACI) initialState sampleRNG).
  reflexivity.
Defined.

(** ** The options, once more *)

(** X13. Every option is the target's answer or the answer of another
    question of the universe, by id; and when at least three candidates
    share the target's domain, of one in that domain. *)
Theorem generateOptions_sources (currentQ : Question) (allQuestions : list Question)
    (g : RNG) (t : string) :
  t ∈ (generateOptions currentQ allQuestions g).1 ->
  t = Question.a currentQ \/
  exists u, u ∈ allQuestions /\ Question.id u <> Question.id currentQ /\
            Question.a u = t /\
            ((3 <= length (sameDomainCandidates currentQ allQuestions))%nat ->
             Question.domain u = Question.domain currentQ).
Proof.
  rewrite generateOptions_Permutation, elem_of_app, list_elem_of_singleton.
  intros [(u & Hu & Ha)%elem_of_distractorsOf|Ht]; [right|by left].
  exists u. unfold selectedPool in Hu. case_decide as Hsame.
  - apply list_elem_of_filter in Hu as [[Hid Hdom] Hin]. by split_and!.
  - apply list_elem_of_filter in Hu as [Hid Hin]. split_and!; try done; lia.
Qed.

Lemma generateOptions_sources_witness :
  "YANG"%string ∈ (generateOptions qGRPC bankDistinct sampleRNG).1 /\
  ("YANG"%string = Question.a qGRPC \/
   exists u, u ∈ bankDistinct /\ Question.id u <> Question.id qGRPC /\
             Question.a u = "YANG"%string /\
             ((3 <= length (sameDomainCandidates qGRPC bankDistinct))%nat ->
              Question.domain u = Question.domain qGRPC)).
Proof.
  assert (Hin : "YANG"%string ∈ (generateOptions qGRPC bankDistinct sampleRNG).1).
  { apply list_elem_of_In. vm_compute. tauto. }
  split; [exact Hin|].
  exact (generateOptions_sources qGRPC bankDistinct sampleRNG "YANG" Hin).
Defined.

(** X14. When the pool has at most three distinct answer texts, each of
    them is offered: no available distractor is dropped. *)
Theorem generateOptions_small_pool (currentQ : Question) (allQuestions : list Question)
    (g : RNG) (u : Question) :
  (distinctAnswers (selectedPool currentQ allQuestions) <= 3)%nat ->
  u ∈ selectedPool currentQ allQuestions ->
  Question.a u ∈ (generateOptions currentQ allQuestions g).1.
Proof.
  intros Hsmall Hu.
  rewrite generateOptions_Permutation, elem_of_app. left.
  unfold distractorsOf. rewrite take_ge.
  - rewrite elem_of_shuffle, elem_of_new_Set, list_elem_of_fmap. by exists u.
  - rewrite shuffle_length, new_Set_length. exact Hsmall.
Qed.

Lemma generateOptions_small_pool_witness :
  (distinctAnswers (selectedPool qREST bankRepeated) <= 3)%nat /\
  qSSH ∈ selectedPool qREST bankRepeated /\
  Question.a qSSH ∈ (generateOptions qREST bankRepeated sampleRNG).1.
Proof.
  assert (Hsmall : (distinctAnswers (selectedPool qREST bankRepeated) <= 3)%nat).
  { vm_compute. lia. }
  assert (Hin : qSSH ∈ selectedPool qREST bankRepeated).
  { apply list_elem_of_In. vm_compute. tauto. }
  split_and!; [exact Hsmall|exact Hin|].
  exact (generateOptions_small_pool qREST bankRepeated sampleRNG qSSH Hsmall Hin).
Defined.

(** ** The draws *)

Lemma shuffle_loop_draws {T : Type} (i : nat) (arr : list T) (g : RNG) (n : nat) :
  (shuffle_loop i arr g).2 n = g (n + i)%nat.
Proof.
  revert arr g n. induction i as [|i IH]; intros arr g n.
  - simpl. by rewrite Nat.add_0_r.
  - rewrite shuffle_loop_step, IH. f_equal. lia.
Qed.

(** X15. Shuffling an array of [n] elements takes exactly [n - 1] draws
    from the generator, none for an array of at most one element: the
    generator left behind is the one received, that many draws on. *)
Theorem shuffle_draws {T : Type} (array : list T) (g : RNG) (n : nat) :
  (shuffle array g).2 n = g (n + (length array - 1))%nat.
Proof. apply shuffle_loop_draws. Qed.

Lemma shuffle_rest {T : Type} (array : list T) (g : RNG) (n : nat) :
  (shuffle array g).2 n = g (n + (length array - 1))%nat.
Proof. apply shuffle_loop_draws. Qed.

(** X16. [generateOptions] takes [d - 1] draws for its first shuffle and
    [min(3, d)] for its second, [d] being the number of distinct answer
    texts of the pool. *)
Theorem generateOptions_draws (currentQ : Question) (allQuestions : list Question)
    (g : RNG) (n : nat) :
  let d := distinctAnswers (selectedPool currentQ allQuestions) in
  (generateOptions currentQ allQuestions g).2 n = g (n + (3 `min` d) + (d - 1))%nat.
Proof.
  simpl. rewrite generateOptions_unfold, bind_run, !shuffle_rest.
  rewrite length_app, length_take, shuffle_length, new_Set_length. simpl.
  unfold distinctAnswers. f_equal. lia.
Qed.

(** ** A faultless session *)

Lemma answerAndAdvance_step (questions : list Question) (s : State) (g : RNG)
    (card : Question) :
  gameState s = PLAYING -> isActive s = true -> 0 < timer s ->
  isAnswered s = false -> currentCard s = Some card ->
  let s' := (answerAndAdvance questions s g).1 in
  deck s' = deck s /\ timer s' = timer s /\
  stats s' = mkStats (correct (stats s) + 1) (wrong (stats s)) (requeued (stats s))
                     (totalAnswered (stats s) + 1) /\
  (((currentIndex s + 1 < length (deck s))%nat /\
    currentIndex s' = (currentIndex s + 1)%nat /\
    gameState s' = PLAYING /\ isActive s' = true /\ isAnswered s' = false) \/
   ((currentIndex s + 1 = length (deck s))%nat /\
    currentIndex s' = currentIndex s /\
    gameState s' = SUMMARY /\ isActive s' = false)).
Proof.
  intros Hplaying Hactive Hpos Hans Hcard.
  unfold answerAndAdvance. rewrite Hcard, bind_run.
  (* the click *)
  assert (Hclick : exists s1,
    (call questions (CallHandleOptionClick (Question.a card)) s g).1 = s1 /\
    (call questions (CallHandleOptionClick (Question.a card)) s g).2 = g /\
    deck s1 = deck s /\ timer s1 = timer s /\ currentIndex s1 = currentIndex s /\
    gameState s1 = PLAYING /\ isActive s1 = true /\
    stats s1 = mkStats (correct (stats s) + 1) (wrong (stats s)) (requeued (stats s))
                       (totalAnswered (stats s) + 1)).
  { eexists. split; [reflexivity|]. unfold call. rewrite bind_run.
    unfold ret. cbn [fst snd]. split; [done|].
    destruct (handleOptionClick_frame (Question.a card) s) as (Ht & _ & Hgs & Hact & _).
    pose proof (handleOptionClick_cases (Question.a card) s) as Hcases.
    destruct (handleOptionClick (Question.a card) s) as [s1|]; cbn [settle] in *;
      [|unfold currentCard in Hcard; destruct Hcases; congruence].
    rewrite timerEffect_running by lia.
    destruct Hcases as [Hidx [[? _]|(card' & _ & Hcard' & _ & _ & Hcase)]];
      [congruence|].
    unfold currentCard in Hcard. assert (card' = card) as -> by congruence.
    destruct Hcase as [(_ & Hd & Hst)|[? _]]; [|done].
    split_and!; congruence. }
  destruct Hclick as (s1 & -> & -> & Hd1 & Ht1 & Hi1 & Hg1 & Ha1 & Hs1).
  (* the move *)
  unfold call. rewrite !bind_run. unfold ret. cbn [fst snd].
  destruct (handleNext_cases questions s1 g) as [(Hlt & next & _ & ->)|(Hge & ->)].
  - rewrite timerEffect_running by (simpl; lia). simpl.
    split_and!; try done. left. rewrite <- Hd1, <- Hi1. by split_and!.
  - rewrite timerEffect_running by (simpl; lia). simpl.
    split_and!; try done. right.
    assert (currentIndex s < length (deck s))%nat
      by (by eapply lookup_lt_Some).
    rewrite Hd1, Hi1 in Hge. split_and!; try done; lia.
Qed.

Lemma perfectRounds_finish (questions : list Question) (n : nat) :
  forall (s : State) (g : RNG),
  gameState s = PLAYING -> isActive s = true -> 0 < timer s ->
  isAnswered s = false -> (currentIndex s + S n = length (deck s))%nat ->
  let s' := (perfectRounds questions (S n) s g).1 in
  gameState s' = SUMMARY /\ isActive s' = false /\ deck s' = deck s /\
  stats s' = mkStats (correct (stats s) + Z.of_nat (S n)) (wrong (stats s))
                     (requeued (stats s)) (totalAnswered (stats s) + Z.of_nat (S n)).
Proof.
  induction n as [|n IH]; intros s g Hplaying Hactive Hpos Hans Hlen.
  - destruct (lookup_lt_is_Some_2 (deck s) (currentIndex s)) as [card Hcard]; [lia|].
    change (perfectRounds questions 1 s g)
      with (bind (answerAndAdvance questions s) (fun s1 => ret s1) g).
    rewrite bind_run. unfold ret. cbn [fst].
    destruct (answerAndAdvance_step questions s g card Hplaying Hactive Hpos Hans Hcard)
      as (Hd & _ & Hst & [(Hlt & _)|(_ & _ & Hsum & Hoff)]); [lia|].
    split_and!; try done; rewrite Hst; f_equal; lia.
  - destruct (lookup_lt_is_Some_2 (deck s) (currentIndex s)) as [card Hcard]; [lia|].
    change (perfectRounds questions (S (S n)) s g)
      with (bind (answerAndAdvance questions s)
                 (fun s1 => perfectRounds questions (S n) s1) g).
    rewrite bind_run.
    destruct (answerAndAdvance_step questions s g card Hplaying Hactive Hpos Hans Hcard)
      as (Hd & Ht & Hst & [(_ & Hidx & Hp & Ha & Hans')|(Heq & _)]); [|lia].
    destruct (IH (answerAndAdvance questions s g).1 (answerAndAdvance questions s g).2
                Hp Ha) as (Hsum & Hoff & Hd' & Hst'); [lia|done|rewrite Hd, Hidx; lia|].
    split_and!; try done; try congruence.
    rewrite Hst', Hst. simpl. f_equal; lia.
Qed.

(** X17. From any state, starting a quiz on a non-empty filtered universe
    of [n] questions and answering every card correctly ends the session
    in SUMMARY after [n] rounds, with the timer stopped, [n] correct
    answers out of [n], nothing wrong or requeued, and the deck still the
    [n] cards it started with. *)
Theorem faultless_session (questions : list Question) (s0 : State) (g : RNG) :
  filteredUniverse questions (selectedDomain s0) <> [] ->
  let n := length (filteredUniverse questions (selectedDomain s0)) in
  let s' := (let* s1 := call questions CallStartGame s0 in
             perfectRounds questions n s1)%rand g in
  gameState s'.1 = SUMMARY /\ isActive s'.1 = false /\
  stats s'.1 = mkStats (Z.of_nat n) 0 0 (Z.of_nat n) /\
  length (deck s'.1) = n /\
  deck s'.1 ≡ₚ filteredUniverse questions (selectedDomain s0).
Proof.
  intros Hne. cbv zeta. rewrite bind_run.
  set (universe := filteredUniverse questions (selectedDomain s0)) in *.
  assert (Hstart : exists s1,
    (call questions CallStartGame s0 g).1 = s1 /\
    gameState s1 = PLAYING /\ isActive s1 = true /\ timer s1 = TIMER_START /\
    isAnswered s1 = false /\ currentIndex s1 = 0%nat /\ stats s1 = mkStats 0 0 0 0 /\
    deck s1 = (shuffle universe g).1).
  { eexists. split; [reflexivity|]. unfold call. rewrite bind_run.
    unfold ret. cbn [fst snd].
    assert (Hlen : length (shuffle universe g).1 <> 0%nat).
    { rewrite shuffle_length. by destruct universe. }
    rewrite timerEffect_running.
    - rewrite startGame_unfold, bind_run. fold universe.
      destruct (shuffle universe g).1; [done|]. by rewrite bind_run.
    - rewrite startGame_unfold, bind_run. fold universe.
      destruct (shuffle universe g).1; [done|]. by rewrite bind_run. }
  destruct Hstart as (s1 & -> & Hp & Ha & Ht & Hans & Hidx & Hst & Hd).
  assert (Hlen : length (deck s1) = length universe) by (by rewrite Hd, shuffle_length).
  destruct (length universe) as [|n] eqn:Hn; [by destruct universe|].
  destruct (perfectRounds_finish questions n s1 (call questions CallStartGame s0 g).2
              Hp Ha) as (Hsum & Hoff & Hd' & Hst');
    [rewrite Ht; done|done|lia|].
  split_and!; try done.
  - rewrite Hst', Hst. simpl. f_equal; lia.
  - congruence.
  - rewrite Hd', Hd. apply shuffle_Permutation.
Qed.

Lemma faultless_session_witness :
  filteredUniverse bankDistinct (selectedDomain initialState) <> [] /\
  stats ((let* s1 := call bankDistinct CallStartGame initialState in
          perfectRounds bankDistinct 5 s1)%rand sampleRNG).1 = mkStats 5 0 0 5.
Proof.
  assert (Hne : filteredUniverse bankDistinct (selectedDomain initialState) <> [])
    by discriminate.
  split; [exact Hne|].
  apply (faultless_session bankDistinct initialState sampleRNG Hne).
Defined.

(** ** Feedback on the option buttons *)

(** X18. Before the card is answered every option button has the open
    style.  After a click on an option, the button of the card's answer
    has the correct style whichever option was clicked, the clicked
    option has the wrong style if it is not the answer, and every other
    button is dimmed. *)
Theorem option_feedback (option : string) (s : State) (card : Question) :
  isAnswered s = false -> currentCard s = Some card ->
  let s' := settle s (handleOptionClick option s) in
  (forall t, getOptionStyle t s = Returned (styleBase +:+ styleOpen)) /\
  getOptionStyle (Question.a card) s' = Returned (styleBase +:+ styleCorrect) /\
  (option <> Question.a card ->
   getOptionStyle option s' = Returned (styleBase +:+ styleWrong)) /\
  (forall t, t <> Question.a card -> t <> option ->
   getOptionStyle t s' = Returned (styleBase +:+ styleDimmed)).
Proof.
  intros Hans Hcard. cbv zeta.
  pose proof (handleOptionClick_cases option s) as Hcases.
  unfold currentCard in Hcard.
  destruct (handleOptionClick option s) as [s'|]; cbn [settle];
    [|destruct Hcases; congruence].
  destruct Hcases as [Hidx [[? _]|(card' & _ & Hcard' & Hans' & Hsel' & Hcase)]];
    [congruence|].
  assert (card' = card) as -> by congruence.
  assert (Hcur : currentCard s' = Some card).
  { unfold currentCard. rewrite Hidx.
    destruct Hcase as [(_ & -> & _)|(_ & -> & _)]; [done|].
    rewrite lookup_app_l; [done|]. by eapply lookup_lt_Some. }
  unfold getOptionStyle. rewrite Hans, Hans', Hcur, Hsel'. simpl. split_and!.
  - done.
  - by rewrite bool_decide_true.
  - intros Hne. rewrite bool_decide_false by done.
    by rewrite !bool_decide_true.
  - intros t Ht Hto. rewrite bool_decide_false by done.
    rewrite (bool_decide_false (Some t = Some option)) by congruence. done.
Qed.

Lemma option_feedback_witness :
  isAnswered samplePlaying = false /\ currentCard samplePlaying = Some qREST /\
  getOptionStyle "REST" (settle samplePlaying (handleOptionClick "YANG" samplePlaying))
  = Returned (styleBase +:+ styleCorrect).
Proof.
  split_and!; [reflexivity|reflexivity|].
  apply (option_feedback "YANG" samplePlaying qREST); reflexivity.
Defined.

(** ** Every order can come out of the shuffle *)

Lemma floor_mul_pick (j i : nat) :
  (j <= i)%nat -> floor_mul (mkDraw j (i - j)) (i + 1) = j.
Proof.
  intros Hj. unfold floor_mul. simpl.
  replace (j + 1 + (i - j))%nat with (i + 1)%nat by lia.
  apply Nat.div_mul. lia.
Qed.

(** One turn of the loop can bring any element of the part still to be
    shuffled to the place [i]. *)
Lemma swap_places {T : Type} (arr : list T) (i j : nat) (x : T) :
  (j <= i)%nat -> (i < length arr)%nat -> arr !! j = Some x ->
  swap arr i j !! i = Some x /\
  drop (S i) (swap arr i j) = drop (S i) arr.
Proof.
  intros Hj Hi Hx. unfold swap. rewrite Hx.
  destruct (lookup_lt_is_Some_2 arr i Hi) as [z Hz]. rewrite Hz. split.
  - destruct (decide (j = i)) as [->|Hne].
    + rewrite list_lookup_insert_eq by (rewrite length_insert; lia). congruence.
    + rewrite list_lookup_insert_ne by done.
      by rewrite list_lookup_insert_eq.
  - by rewrite !drop_insert_lt by lia.
Qed.

Lemma shuffle_loop_reaches {T : Type} (i : nat) :
  forall arr target : list T,
  arr ≡ₚ target -> (i < length arr)%nat ->
  drop (S i) arr = drop (S i) target ->
  exists g : RNG, (shuffle_loop i arr g).1 = target.
Proof.
  induction i as [|i IH]; intros arr target Hperm Hlen Hdrop.
  - exists (fun _ => mkDraw 0 0). simpl.
    destruct arr as [|x arr]; [simpl in Hlen; lia|].
    destruct target as [|y target]; [by apply Permutation_nil_r in Hperm|].
    simpl in Hdrop. rewrite !drop_0 in Hdrop. subst target.
    change (x :: arr) with ([x] ++ arr) in Hperm.
    change (y :: arr) with ([y] ++ arr) in Hperm.
    apply Permutation_app_inv_r, Permutation_singleton_inj in Hperm. by subst.
  - assert (Hlen' : length target = length arr) by (by rewrite Hperm).
    destruct (lookup_lt_is_Some_2 target (S i)) as [x Hx]; [lia|].
    (* the element wanted at [S i] sits somewhere at or before [S i] *)
    assert (Htake : take (S (S i)) arr ≡ₚ take (S (S i)) target).
    { apply (Permutation_app_inv_r (drop (S (S i)) arr)).
      rewrite take_drop, Hdrop, take_drop. exact Hperm. }
    assert (Hj : exists j, arr !! j = Some x /\ (j < S (S i))%nat).
    { apply elem_of_take. rewrite Htake. apply elem_of_take. exists (S i). split; [done|lia]. }
    destruct Hj as (j & Hjx & Hjlt).
    destruct (swap_places arr (S i) j x) as [Hat Hrest]; [lia|done|done|].
    destruct (IH (swap arr (S i) j) target) as [g' Hg'].
    + by rewrite swap_Permutation.
    + rewrite swap_length. lia.
    + rewrite (drop_S _ _ _ Hat), (drop_S _ _ _ Hx). by rewrite Hrest, Hdrop.
    + exists (fun n => match n with O => mkDraw j (S i - j) | S n' => g' n' end).
      rewrite shuffle_loop_step. cbn beta iota.
      rewrite floor_mul_pick by lia. exact Hg'.
Qed.

(** X19. Every ordering of the input can come out of [shuffle]: for each
    permutation of the array there are draws that produce it. *)
Theorem shuffle_reaches {T : Type} (array target : list T) :
  array ≡ₚ target -> exists g : RNG, (shuffle array g).1 = target.
Proof.
  intros Hperm. unfold shuffle.
  destruct array as [|x array].
  - exists (fun _ => mkDraw 0 0). symmetry in Hperm.
    apply Permutation_nil_r in Hperm. by subst.
  - apply shuffle_loop_reaches; [done|simpl; lia|].
    rewrite !drop_ge; [done| |simpl; lia].
    rewrite <- Hperm. simpl. lia.
Qed.

Lemma shuffle_reaches_witness :
  [10; 20; 30]%nat ≡ₚ [30; 10; 20]%nat /\
  exists g : RNG, (shuffle [10; 20; 30]%nat g).1 = [30; 10; 20]%nat.
Proof.
  assert (Hperm : [10; 20; 30]%nat ≡ₚ [30; 10; 20]%nat).
  { symmetry. apply (Permutation_cons_append [10; 20]%nat 30%nat). }
  split; [exact Hperm|].
  exact (shuffle_reaches [10; 20; 30]%nat [30; 10; 20]%nat Hperm).
Defined.

(** ** A missed card comes back *)

(** X20. After a wrong answer the missed card is the last card of the
    deck, and [handleNext] moves on to the next card: it never ends the
    session straight after a wrong answer. *)
Theorem missed_card_returns (questions : list Question) (option : string)
    (s : State) (card : Question) (g : RNG) :
  isAnswered s = false -> currentCard s = Some card ->
  option <> Question.a card ->
  let s1 := settle s (handleOptionClick option s) in
  let s2 := settle s1 (handleNext questions s1 g).1 in
  last (deck s1) = Some card /\
  currentIndex s2 = (currentIndex s + 1)%nat /\
  gameState s2 = gameState s /\ isActive s2 = isActive s /\
  isAnswered s2 = false /\ deck s2 = deck s ++ [card].
Proof.
  intros Hans Hcard Hne. cbv zeta. unfold currentCard in Hcard.
  destruct (handleOptionClick_frame option s) as (_ & _ & Hgs & Hact & _).
  pose proof (handleOptionClick_cases option s) as Hcases.
  destruct (handleOptionClick option s) as [s1|]; cbn [settle] in *;
    [|destruct Hcases; congruence].
  destruct Hcases as [Hidx [[? _]|(card' & _ & Hcard' & _ & _ & Hcase)]];
    [congruence|].
  assert (card' = card) as -> by congruence.
  destruct Hcase as [[? _]|(_ & Hdeck & _)]; [done|].
  assert (Hlt : (currentIndex s < length (deck s))%nat) by (by eapply lookup_lt_Some).
  split; [by rewrite Hdeck, last_snoc|].
  destruct (handleNext_cases questions s1 g) as [(_ & next & _ & ->)|(Hge & _)].
  - simpl. rewrite Hidx. by split_and!.
  - rewrite Hdeck, length_app, Hidx in Hge. simpl in Hge. lia.
Qed.

Lemma missed_card_returns_witness :
  isAnswered samplePlaying = false /\ currentCard samplePlaying = Some qREST /\
  "YANG"%string <> Question.a qREST /\
  last (deck (settle samplePlaying (handleOptionClick "YANG" samplePlaying))) = Some qREST.
Proof.
  assert (Hne : "YANG"%string <> Question.a qREST) by discriminate.
  split_and!; [reflexivity|reflexivity|exact Hne|].
  apply (missed_card_returns bankDistinct "YANG" samplePlaying qREST sampleRNG);
    [reflexivity|reflexivity|exact Hne].
Defined.

(** ** The NEXT button *)

Lemma offered_handleNext (c : Control) (s : State) :
  offered c s = Some CallHandleNext ->
  c = NextButton /\ cardShown s = true /\ isAnswered s = true.
Proof.
  destruct c; simpl; try (by repeat case_match).
  - destruct (cardShown s && negb (isAnswered s)); [|done].
    by destruct (currentOptions s !! idx).
  - destruct (cardShown s), (isAnswered s); done.
Qed.

Lemma offered_startGame (c : Control) (s : State) :
  offered c s = Some CallStartGame -> gameState s = SETUP.
Proof.
  destruct c; simpl; try (by repeat case_match).
  - by destruct (bool_decide_reflect (gameState s = SETUP)).
  - destruct (cardShown s && negb (isAnswered s)); [|done].
    by destruct (currentOptions s !! idx).
Qed.

(** Calls other than [startGame] and [handleNext] leave the cursor and the
    options alone. *)
Lemma call_keeps_card (questions : list Question) (k : Call) (s : State) (g : RNG) :
  k <> CallStartGame -> k <> CallHandleNext ->
  currentIndex (call questions k s g).1 = currentIndex s /\
  currentOptions (call questions k s g).1 = currentOptions s.
Proof.
  intros Hstart Hnext. unfold call. rewrite bind_run. unfold ret. cbn [fst snd].
  assert (Heffect : forall s1,
            currentIndex (timerEffect s1) = currentIndex s1 /\
            currentOptions (timerEffect s1) = currentOptions s1).
  { intros s1. by destruct (timerEffect_cases s1) as [->|(_ & _ & ->)]. }
  destruct k; try done; cbn [fst];
    match goal with |- context [timerEffect ?x] =>
      destruct (Heffect x) as [-> ->] end.
  - done.
  - done.
  - destruct (handleOptionClick_frame option s) as (_ & -> & _).
    pose proof (handleOptionClick_cases option s) as Hcases.
    destruct (handleOptionClick option s) as [s'|]; cbn [settle] in *; [|done].
    by destruct Hcases as [-> _].
  - done.
  - by destruct (tick_cases s) as [->|(_ & _ & ->)].
Qed.

(** C4, as the code has it.  [handleNext] is offered by one control only,
    the NEXT button, and only on a page that shows an answered card.
    While the card is not answered no control offers it, a press where
    the button would be leaves the state (cursor, options, phase, timer)
    as it is, and no input to a session in play moves the cursor or
    replaces the options.  [handleNext] itself does not look at
    [isAnswered]. *)
Theorem next_needs_answer (questions : list Question) (s : State) (g : RNG) :
  isAnswered s = false ->
  (forall c : Control, offered c s <> Some CallHandleNext) /\
  offered NextButton s = None /\
  act questions NextButton s g = (s, g) /\
  (forall (c : Control) (s' : State),
     offered c s' = Some CallHandleNext ->
     c = NextButton /\ cardShown s' = true /\ isAnswered s' = true) /\
  (gameState s = PLAYING ->
   forall i : Input,
     currentIndex (react questions i s g).1 = currentIndex s /\
     currentOptions (react questions i s g).1 = currentOptions s).
Proof.
  intros Hans.
  assert (Hnone : forall c : Control, offered c s <> Some CallHandleNext).
  { intros c (_ & _ & Htrue)%offered_handleNext. congruence. }
  split_and!.
  - exact Hnone.
  - unfold offered. by rewrite Hans, andb_false_r.
  - unfold act, offered. by rewrite Hans, andb_false_r.
  - apply offered_handleNext.
  - intros Hplaying [c|].
    + unfold react, act. destruct (offered c s) as [k|] eqn:Hk; [|done].
      apply call_keeps_card.
      * intros ->. apply offered_startGame in Hk. congruence.
      * intros ->. by apply (Hnone c).
    + by apply call_keeps_card.
Qed.

Lemma next_needs_answer_witness :
  isAnswered samplePlaying = false /\
  (forall c : Control, offered c samplePlaying <> Some CallHandleNext) /\
  act bankDistinct NextButton samplePlaying sampleRNG = (samplePlaying, sampleRNG).
Proof.
  split; [reflexivity|].
  destruct (next_needs_answer bankDistinct samplePlaying sampleRNG eq_refl)
    as (Hnone & _ & Hpress & _).
  exact (conj Hnone Hpress).
Defined.
